(** * company-enricher: the enrichment orchestration engine

    A shallow embedding of the core of [company_enricher]: the token-bucket
    rate limiter and its adaptive variant ([pipeline/rate_limiter.py]), the
    memoising decorator ([cache.py]), the headcount extraction loop
    ([fetchers/companies_house.py]), the per-record enrichment and the batch
    driver with its checkpoints ([pipeline/enricher.py]), the resume logic
    of the command line ([cli.py]), the batch utilities ([pipeline/batch.py])
    and the choice among the results of a web search
    ([fetchers/web_search.py]).

    Conventions.  Python floats are modelled as rationals [Q]: the bounds
    proved for the token bucket rest on comparisons, [min], the subtraction
    of a smaller from a larger number and a multiplication by two, which
    behave on floats as on rationals; the factor 1.1 of the adaptive limiter
    is the rational 11/10, and what is proved about it does not depend on
    how the product is rounded.  Readings of [time.time()] are passed in as
    arguments; a call that may raise returns an [Outcome].  Logging, the
    progress bar and the [ProgressTracker] counters have no effect on what
    the driver returns or writes and are left out of its model; the tracker
    is modelled on its own. *)

From Stdlib Require Import ZArith QArith Qround Lia Lqa String Ascii List.
From stdpp Require Import base gmap strings list pretty.

Open Scope Z_scope.

(** ** Results of calls that may raise *)

Inductive Outcome (A : Type) : Type :=
| Returned (a : A)
| Raised.
Arguments Returned {A} a.
Arguments Raised {A}.

Definition is_returned {A} (o : Outcome A) : bool :=
  match o with Returned _ => true | Raised => false end.

(** ** Rationals as the model of Python floats *)

Definition Qlt_bool (x y : Q) : bool := negb (Qle_bool y x).

(** Python's [min(a, b)]: the first argument unless the second is smaller. *)
Definition py_min (a b : Q) : Q := if Qlt_bool b a then b else a.

(** Python's [max(a, b)]: the first argument unless the second is larger. *)
Definition py_max (a b : Q) : Q := if Qlt_bool a b then b else a.

(** Python's [int(x)] on a float: truncation toward zero. *)
Definition py_int (x : Q) : Z := Z.quot (Qnum x) (Zpos (Qden x)).

(** ** [pipeline/rate_limiter.py] *)

Module Limiter.

(** The attributes of a [RateLimiter] instance. *)
Record RateLimiter : Type := mkRateLimiter {
  max_rate : Q;
  burst_size : Z;
  tokens : Q;
  last_update : Q
}.

(** [max(1, int(max_rate * 2))] *)
Definition default_burst_size (rate : Q) : Z := Z.max 1 (py_int (rate * 2)).

(** [RateLimiter.__init__]; [burst_size or ...] takes the default both for
    [None] and for [0]. *)
Definition init (rate : Q) (burst : option Z) (now : Q) : RateLimiter :=
  let b := match burst with
           | Some b => if b =? 0 then default_burst_size rate else b
           | None => default_burst_size rate
           end in
  {| max_rate := rate; burst_size := b; tokens := inject_Z b; last_update := now |}.

(** The refill at the start of [acquire]: tokens for the elapsed time, capped
    at [burst_size], and the new timestamp. *)
Definition refill (rl : RateLimiter) (now : Q) : RateLimiter :=
  {| max_rate := max_rate rl;
     burst_size := burst_size rl;
     tokens := py_min (inject_Z (burst_size rl))
                      (tokens rl + (now - last_update rl) * max_rate rl)%Q;
     last_update := now |}.

Definition set_tokens (rl : RateLimiter) (t : Q) : RateLimiter :=
  {| max_rate := max_rate rl; burst_size := burst_size rl;
     tokens := t; last_update := last_update rl |}.

(** [RateLimiter.acquire(tokens=cost)] at clock reading [now]: the time slept
    and the state the call leaves behind. *)
Definition acquire (rl : RateLimiter) (now : Q) (cost : Z) : Q * RateLimiter :=
  let rl1 := refill rl now in
  if Qlt_bool (tokens rl1) (inject_Z cost)
  then ((inject_Z cost - tokens rl1) / max_rate rl1,
        set_tokens rl1 (inject_Z cost - inject_Z cost))%Q
  else (0%Q, set_tokens rl1 (tokens rl1 - inject_Z cost)%Q).

(** [RateLimiter.available_tokens()] at clock reading [now]. *)
Definition available_tokens (rl : RateLimiter) (now : Q) : Z :=
  py_int (py_min (inject_Z (burst_size rl))
                 (tokens rl + (now - last_update rl) * max_rate rl)%Q).

(** A sequence of [acquire] calls, each with its clock reading and its
    cost: the state it leaves behind. *)
Fixpoint run (rl : RateLimiter) (calls : list (Q * Z)) : RateLimiter :=
  match calls with
  | [] => rl
  | (now, cost) :: rest => run (snd (acquire rl now cost)) rest
  end.

(** The clock does not run backwards: every reading is at least the one
    before it, the first at least [t]. *)
Fixpoint clock_ok (t : Q) (calls : list (Q * Z)) : Prop :=
  match calls with
  | [] => True
  | (now, _) :: rest => (t <= now)%Q /\ clock_ok now rest
  end.

(** What every call preserves, whatever its cost. *)
Definition bucket_ok (rl : RateLimiter) : Prop :=
  (0 < max_rate rl)%Q /\ (0 <= tokens rl)%Q /\ 0 <= burst_size rl.

(** *** The adaptive limiter

    [AdaptiveRateLimiter] inherits the attributes of [RateLimiter]; its
    [__init__] first runs the base initialiser with [initial_rate] and then
    assigns its own [max_rate] argument to the same attribute [self.max_rate],
    which from then on is both the refill rate of [acquire] and the ceiling
    read by [record_success]. *)
Record AdaptiveRateLimiter : Type := mkAdaptive {
  base : RateLimiter;
  min_rate : Q;
  current_rate : Q;
  consecutive_successes : Z;
  recent_failures : Z
}.

Definition set_max_rate (rl : RateLimiter) (r : Q) : RateLimiter :=
  {| max_rate := r; burst_size := burst_size rl;
     tokens := tokens rl; last_update := last_update rl |}.

(** [AdaptiveRateLimiter.__init__(initial_rate, min_rate, max_rate)] *)
Definition adaptive_init (initial_rate min_r max_r : Q) (now : Q) : AdaptiveRateLimiter :=
  {| base := set_max_rate (init initial_rate None now) max_r;
     min_rate := min_r;
     current_rate := initial_rate;
     consecutive_successes := 0;
     recent_failures := 0 |}.

(** [AdaptiveRateLimiter.record_success] *)
Definition record_success (a : AdaptiveRateLimiter) : AdaptiveRateLimiter :=
  let cs := consecutive_successes a + 1 in
  let rf := Z.max 0 (recent_failures a - 1) in
  if 10 <=? cs then
    let new_rate := py_min (max_rate (base a)) (current_rate a * (11 # 10))%Q in
    if negb (Qeq_bool new_rate (current_rate a))
    then {| base := set_max_rate (base a) new_rate; min_rate := min_rate a;
            current_rate := new_rate;
            consecutive_successes := 0; recent_failures := rf |}
    else {| base := base a; min_rate := min_rate a;
            current_rate := current_rate a;
            consecutive_successes := 0; recent_failures := rf |}
  else {| base := base a; min_rate := min_rate a;
          current_rate := current_rate a;
          consecutive_successes := cs; recent_failures := rf |}.

(** [AdaptiveRateLimiter.record_failure] *)
Definition record_failure (a : AdaptiveRateLimiter) (is_rate_limit : bool)
  : AdaptiveRateLimiter :=
  let rf := recent_failures a + 1 in
  if is_rate_limit || (3 <=? rf) then
    let new_rate := py_max (min_rate a) (current_rate a * (1 # 2))%Q in
    if negb (Qeq_bool new_rate (current_rate a))
    then {| base := set_max_rate (base a) new_rate; min_rate := min_rate a;
            current_rate := new_rate;
            consecutive_successes := 0; recent_failures := rf |}
    else {| base := base a; min_rate := min_rate a;
            current_rate := current_rate a;
            consecutive_successes := 0; recent_failures := rf |}
  else {| base := base a; min_rate := min_rate a;
          current_rate := current_rate a;
          consecutive_successes := 0; recent_failures := rf |}.

(** [n] calls of [record_success] in a row. *)
Definition successes (n : nat) (a : AdaptiveRateLimiter) : AdaptiveRateLimiter :=
  Nat.iter n record_success a.

(** Python's [round] on a float: to the nearest integer, ties to the even
    one.  Only the statement of the documented default burst size uses it. *)
Definition py_round (x : Q) : Z :=
  let f := Qfloor x in
  let r := (x - inject_Z f)%Q in
  if Qlt_bool r (1 # 2) then f
  else if Qlt_bool (1 # 2) r then f + 1
  else if Z.even f then f else f + 1.

(** *** Sequences of calls

    The time each call of a sequence sleeps. *)
Fixpoint waits (rl : RateLimiter) (calls : list (Q * Z)) : list Q :=
  match calls with
  | [] => []
  | (now, cost) :: rest =>
      fst (acquire rl now cost) :: waits (snd (acquire rl now cost)) rest
  end.

(** Calls of [acquire()] with the default cost at the given clock readings. *)
Definition unit_calls (times : list Q) : list (Q * Z) :=
  (fun t => (t, 1)) <$> times.

(** What the caller of an adaptive limiter reports. *)
Inductive Event : Type :=
| Success
| Failure (is_rate_limit : bool).

Definition record (a : AdaptiveRateLimiter) (e : Event) : AdaptiveRateLimiter :=
  match e with
  | Success => record_success a
  | Failure is_rate_limit => record_failure a is_rate_limit
  end.

Definition run_events (a : AdaptiveRateLimiter) (events : list Event)
  : AdaptiveRateLimiter :=
  fold_left record events a.

(** The rates of an adaptive limiter are in order: the floor is positive, the
    current rate is between the floor and the attribute [self.max_rate]. *)
Definition rates_ok (a : AdaptiveRateLimiter) : Prop :=
  (0 < min_rate a)%Q /\ (min_rate a <= current_rate a)%Q /\
  (current_rate a <= max_rate (base a))%Q.

(** [n] calls of [record_failure()] in a row, none flagged as a rate-limit
    error. *)
Definition failures (n : nat) (a : AdaptiveRateLimiter) : AdaptiveRateLimiter :=
  run_events a (replicate n (Failure false)).

End Limiter.

(** ** Byte and text helpers

    Python [str] and [bytes] values are both modelled as [string] (a list of
    bytes). *)

Module Text.

(** [needle in hay] *)
Fixpoint contains (needle hay : string) : bool :=
  match hay with
  | EmptyString => String.prefix needle EmptyString
  | String _ hay' => String.prefix needle hay || contains needle hay'
  end.

Definition lower_ascii (c : ascii) : ascii :=
  let n := nat_of_ascii c in
  if (65 <=? n)%nat && (n <=? 90)%nat then ascii_of_nat (n + 32) else c.

(** [s.lower()] on ASCII letters *)
Fixpoint lower (s : string) : string :=
  match s with
  | EmptyString => EmptyString
  | String c s' => String (lower_ascii c) (lower s')
  end.

(** [s[:n]] *)
Definition take (n : nat) (s : string) : string := String.substring 0 n s.

(** [bool(s)] for a string *)
Definition truthy (s : string) : bool := negb (String.eqb s "").

(** [bool(v)] for a value that is a string or [None] *)
Definition truthy_opt (o : option string) : bool :=
  match o with Some s => truthy s | None => false end.

Fixpoint last_segment_from (sep : ascii) (s acc : string) : string :=
  match s with
  | EmptyString => acc
  | String c s' =>
      if Ascii.eqb c sep then last_segment_from sep s' EmptyString
      else last_segment_from sep s' (acc +:+ String c EmptyString)
  end.

(** [s.split(sep)[-1]] for a one-character separator *)
Definition last_segment (sep : ascii) (s : string) : string :=
  last_segment_from sep s EmptyString.

(** [sep.join(parts)] *)
Fixpoint join (sep : string) (parts : list string) : string :=
  match parts with
  | [] => EmptyString
  | [x] => x
  | x :: rest => x +:+ sep +:+ join sep rest
  end.

(** [s.endswith(suffix)] *)
Definition endswith (s suffix : string) : bool :=
  (String.length suffix <=? String.length s)%nat &&
  String.eqb (String.substring (String.length s - String.length suffix)
                               (String.length suffix) s) suffix.

End Text.

(** ** [cache.py]: the [cached] decorator

    The disk cache is a finite map from keys to stored entries; an entry
    holds the stored Python value, which may be [None], and the time at
    which it expires.  [cache.get(key)] answers [None] both for a key that
    is absent or expired and for a key under which [None] is stored. *)

Module Cache.

Section Cached.

(** The non-[None] values of the wrapped function; [option Value] is a
    Python value that may be [None]. *)
Context {Args Value World : Type}.

Record Entry : Type := mkEntry {
  stored : option Value;
  expire_time : Z
}.

(** [hash((args, tuple(sorted(filtered_kwargs.items()))))] *)
Variable hash_args : Args -> Z.
Variables (key_prefix func_name : string) (ttl_seconds : Z).

(** The wrapped function: its result (or exception) and its effect on the
    world it runs in. *)
Variable func : Args -> World -> Outcome (option Value) * World.

(** What the cache itself does during one call of the wrapper: whether
    [cache.get] and [cache.set] raise. *)
Record Faults : Type := mkFaults {
  get_raises : bool;
  set_raises : bool
}.

Definition cache_key (args : Args) : string :=
  key_prefix +:+ ":" +:+ func_name +:+ ":" +:+ pretty (hash_args args).

(** [cache.get(key)] at time [now] *)
Definition cache_get (c : gmap string Entry) (key : string) (now : Z) : option Value :=
  match c !! key with
  | Some e => if now <? expire_time e then stored e else None
  | None => None
  end.

(** [cache.set(key, value, expire=ttl_seconds)] at time [now] *)
Definition cache_set (c : gmap string Entry) (key : string) (v : option Value) (now : Z)
  : gmap string Entry :=
  <[key := {| stored := v; expire_time := now + ttl_seconds |}]> c.

(** The first [try] of the wrapper: the value found in the cache, [None]
    when the lookup raised. *)
Definition lookup_result (c : gmap string Entry) (key : string) (now : Z) (f : Faults)
  : option Value :=
  if get_raises f then None else cache_get c key now.

(** The [wrapper] that the decorator puts around [func] *)
Definition wrapper (args : Args) (now : Z) (f : Faults)
           (st : gmap string Entry * World)
  : Outcome (option Value) * (gmap string Entry * World) :=
  let '(c, w) := st in
  let key := cache_key args in
  match lookup_result c key now f with
  | Some v => (Returned (Some v), (c, w))
  | None =>
      match func args w with
      | (Returned result, w') =>
          let c' := if set_raises f then c else cache_set c key result now in
          (Returned result, (c', w'))
      | (Raised, w') => (Raised, (c, w'))
      end
  end.

(** Nothing but [None] is stored under the key, if anything. *)
Definition none_at (c : gmap string Entry) (k : string) : Prop :=
  forall e, c !! k = Some e -> stored e = None.

(** A sequence of calls of the wrapper with the same arguments, each at its
    own time and with its own cache faults: the results and the final
    state. *)
Fixpoint calls (args : Args) (l : list (Z * Faults))
         (st : gmap string Entry * World)
  : list (Outcome (option Value)) * (gmap string Entry * World) :=
  match l with
  | [] => ([], st)
  | (now, f) :: l' =>
      let '(r, st1) := wrapper args now f st in
      let '(rs, st2) := calls args l' st1 in
      (r :: rs, st2)
  end.

(** The world after [n] direct invocations of the wrapped function. *)
Definition invoke_n (args : Args) (n : nat) (w : World) : World :=
  Nat.iter n (fun w => snd (func args w)) w.

(** A sequence of calls of the wrapper, each with its own arguments. *)
Fixpoint calls_any (l : list (Args * Z * Faults))
         (st : gmap string Entry * World)
  : list (Outcome (option Value)) * (gmap string Entry * World) :=
  match l with
  | [] => ([], st)
  | (args, now, f) :: l' =>
      let '(r, st1) := wrapper args now f st in
      let '(rs, st2) := calls_any l' st1 in
      (r :: rs, st2)
  end.

(** The same sequence of calls made on the wrapped function itself. *)
Fixpoint direct_calls (l : list (Args * Z * Faults)) (w : World)
  : list (Outcome (option Value)) * World :=
  match l with
  | [] => ([], w)
  | (args, _, _) :: l' =>
      let '(r, w1) := func args w in
      let '(rs, w2) := direct_calls l' w1 in
      (r :: rs, w2)
  end.

(** Every entry of the cache holds what the function [f] answers for the
    arguments of its key. *)
Definition coherent (f : Args -> option Value) (c : gmap string Entry) : Prop :=
  forall args e, c !! cache_key args = Some e -> stored e = f args.

End Cached.

(** A function that counts its invocations and always answers [None]. *)
Definition counting_none (_ : Z) (n : nat) : Outcome (option Z) * nat :=
  (Returned None, S n).

(** A function that counts its invocations and answers the square of its
    argument. *)
Definition counting_square (z : Z) (n : nat) : Outcome (option Z) * nat :=
  (Returned (Some (z * z)), S n).

End Cache.

(** ** [fetchers/companies_house.py]: headcounts from the filing history *)

Module CompaniesHouse.

Import Text.

(** A [FilingRecord]: every key of the dictionary may be missing. *)
Record FilingRecord : Type := mkFiling {
  made_up_date : option string;
  links : option (gmap string string)
}.

(** What the HTTP client answers: the bytes of a document, empty when the
    download fails ([CompaniesHouseClient.get_document_content]). *)
Record HttpClient : Type := mkHttpClient {
  get_document_content : string -> string
}.

(** The two extractors of [parsers/], taken as given: the structured (iXBRL)
    one runs on the decoded text of the document, the PDF one on its bytes. *)
Record Parsers : Type := mkParsers {
  extract_employees_from_ixbrl : string -> Outcome (option Z);
  extract_employees_from_pdf : string -> Outcome (option Z)
}.

Definition tracked_years : list string := ["2024"; "2023"; "2022"].

Definition employees_key (year : string) : string := "employees_" +:+ year.

Definition empty_headcounts : gmap string string :=
  <["employees_2024" := ""]> (<["employees_2023" := ""]> (<["employees_2022" := ""]> ∅)).

(** The test in front of the structured extractor:
    [b"<html xmlns" in content[:2000] or b"xbrl" in content[:2000].lower()] *)
Definition looks_like_ixbrl (content : string) : bool :=
  contains "<html xmlns" (take 2000 content)
  || contains "xbrl" (lower (take 2000 content)).

(** A [try] around an extractor: an exception counts as nothing found. *)
Definition attempt (o : Outcome (option Z)) : option Z :=
  match o with Returned r => r | Raised => None end.

(** The extraction part of the loop body: the structured extractor when the
    document looks like iXBRL, then the PDF extractor if nothing was found. *)
Definition extract_employee_count (P : Parsers) (content : string) : option Z :=
  let employee_count :=
    if looks_like_ixbrl content
    then attempt (extract_employees_from_ixbrl P content)
    else None in
  match employee_count with
  | Some n => Some n
  | None => attempt (extract_employees_from_pdf P content)
  end.

(** The document a filing points to: [None] where the loop body says
    [continue] before or right after the download. *)
Definition filing_document (client : HttpClient) (filing : FilingRecord) : option string :=
  let doc_metadata_link := default "" (default ∅ (links filing) !! "document_metadata") in
  if negb (truthy doc_metadata_link) then None else
  let document_id := last_segment "/" doc_metadata_link in
  if negb (truthy document_id) then None else
  let content := get_document_content client document_id in
  if negb (truthy content) then None else Some content.

(** One iteration of the loop over the filings. *)
Definition process_filing (P : Parsers) (client : HttpClient)
           (headcounts : gmap string string) (filing : FilingRecord)
  : gmap string string :=
  let made_up := default "" (made_up_date filing) in
  if negb (truthy made_up) || (String.length made_up <? 4)%nat then headcounts else
  let year := take 4 made_up in
  if negb (bool_decide (year ∈ tracked_years)) then headcounts else
  if truthy_opt (headcounts !! employees_key year) then headcounts else
  match filing_document client filing with
  | None => headcounts
  | Some content =>
      match extract_employee_count P content with
      | Some n => <[employees_key year := pretty n]> headcounts
      | None => headcounts
      end
  end.

(** [extract_headcount_from_filings(filings, client)] *)
Definition extract_headcount_from_filings (P : Parsers)
           (filings : list FilingRecord) (client : option HttpClient)
  : gmap string string :=
  match filings, client with
  | [], _ | _, None => empty_headcounts
  | _, Some c => fold_left (process_filing P c) filings empty_headcounts
  end.

(** *** The policy in words

    The year a filing reports on, when it is a tracked one. *)
Definition filing_year (filing : FilingRecord) : option string :=
  let made_up := default "" (made_up_date filing) in
  if (String.length made_up <? 4)%nat then None
  else if bool_decide (take 4 made_up ∈ tracked_years) then Some (take 4 made_up)
  else None.

(** The headcount a single filing yields under the source's extraction. *)
Definition filing_headcount (P : Parsers) (client : HttpClient) (filing : FilingRecord)
  : option Z :=
  filing_document client filing ≫= extract_employee_count P.

(** First-seen-per-year: the first filing of [year], in list order, that
    yields a headcount decides it. *)
Definition first_seen (P : Parsers) (client : HttpClient)
           (filings : list FilingRecord) (year : string) : string :=
  match omap (filing_headcount P client)
             (filter (fun f => filing_year f = Some year) filings) with
  | n :: _ => pretty n
  | [] => ""
  end.

(** The extraction as the specification words it: the structured extractor on
    every document, then the text extractor. *)
Definition structured_then_text (P : Parsers) (content : string) : option Z :=
  match attempt (extract_employees_from_ixbrl P content) with
  | Some n => Some n
  | None => attempt (extract_employees_from_pdf P content)
  end.

Definition first_seen_as_worded (P : Parsers) (client : HttpClient)
           (filings : list FilingRecord) (year : string) : string :=
  match omap (fun f => filing_document client f ≫= structured_then_text P)
             (filter (fun f => filing_year f = Some year) filings) with
  | n :: _ => pretty n
  | [] => ""
  end.

(** *** A filing whose document is a bare tagged fragment

    The document does not pass the test in front of the structured
    extractor, although that extractor, whose last resort is a pattern for
    [<...NumberOfEmployees...>digits</], reads 12 from it; it is no PDF, so
    the PDF extractor finds nothing. *)
Definition fragment : string := "<NumberOfEmployees>12</NumberOfEmployees>".

Definition fragment_parsers : Parsers :=
  {| extract_employees_from_ixbrl := fun content =>
       Returned (if contains "NumberOfEmployees>12</" content then Some 12 else None);
     extract_employees_from_pdf := fun _ => Returned None |}.

Definition fragment_client : HttpClient :=
  {| get_document_content := fun document_id =>
       if String.eqb document_id "abc" then fragment else "" |}.

Definition fragment_filings : list FilingRecord :=
  [ {| made_up_date := Some "2023-12-31";
       links := Some (<["document_metadata" := "https://document-api/document/abc"]> ∅) |} ].

End CompaniesHouse.

(** ** [pipeline/enricher.py]: one record *)

Module Enricher.

Import Text CompaniesHouse.

(** A [CompaniesHouseProfile]; the address key may be missing. *)
Record Profile : Type := mkProfile {
  registered_office_address : option (gmap string string)
}.

(** The collaborators a [CompanyEnricher] talks to while it enriches one
    record.  Each fetch is given by its outcome for an argument; the two
    fetches of step 1 are gathered with [return_exceptions=True], the others
    are awaited inside the [try] block. *)
Record Sources : Type := mkSources {
  fetch_profile : string -> Outcome Profile;
  fetch_latest_filings : string -> Outcome (list FilingRecord);
  to_latlon : string -> Outcome (option string);
  find_official_site : string -> Outcome (option string);
  grab_description : string -> Outcome string;
  http_client : option HttpClient;
  parsers : Parsers
}.

(** The initial [result] dictionary: the six fields, all empty. *)
Definition empty_result : gmap string string :=
  <["company_url" := ""]> (<["description" := ""]>
  (<["employees_2024" := ""]> (<["employees_2023" := ""]>
  (<["employees_2022" := ""]> (<["manufacturing_location" := ""]> ∅))))).

Definition result_fields : list string :=
  ["company_url"; "description"; "employees_2024"; "employees_2023";
   "employees_2022"; "manufacturing_location"].

(** [CompanyEnricher._format_address]: [filter(None, parts)] drops the
    missing and the empty parts. *)
Definition _format_address (address_data : gmap string string) : string :=
  join ", "
    (omap (fun k => match address_data !! k with
                    | Some s => if truthy s then Some s else None
                    | None => None
                    end)
          ["premises"; "address_line_1"; "address_line_2"; "locality";
           "region"; "postal_code"; "country"]).

(** *** The body of the [try] block

    The block mutates the local dictionary [result] and may be left by an
    exception at any [await]; the handler then returns [result] as it is.  A
    step is therefore a function from the dictionary to an outcome and the
    dictionary the step leaves behind. *)
Definition Step (A : Type) : Type :=
  gmap string string -> Outcome A * gmap string string.

Definition ret {A} (a : A) : Step A := fun r => (Returned a, r).

Definition bind {A B} (m : Step A) (k : A -> Step B) : Step B :=
  fun r => match m r with
           | (Returned a, r') => k a r'
           | (Raised, r') => (Raised, r')
           end.

(** [await] of a call whose outcome is [o] *)
Definition await {A} (o : Outcome A) : Step A := fun r => (o, r).

(** [result[key] = v] *)
Definition assign (key v : string) : Step unit :=
  fun r => (Returned tt, <[key := v]> r).

(** [result.update(d)] *)
Definition update (d : gmap string string) : Step unit :=
  fun r => (Returned tt, d ∪ r).

Declare Scope step_scope.
Delimit Scope step_scope with step.
Notation "'let*' x := m 'in' k" := (bind m (fun x => k))
  (at level 10, x name, m at level 100, k at level 200) : step_scope.
Notation "m ;;; k" := (bind m (fun _ => k))
  (at level 100, k at level 200, right associativity) : step_scope.

(** Step 2: registered address and geocoding. *)
Definition locate (S : Sources) (profile : Outcome Profile) : Step unit :=
  match profile with
  | Raised => ret tt
  | Returned p =>
      let address_parts := default ∅ (registered_office_address p) in
      if bool_decide (address_parts = ∅) then ret tt
      else
        let address_str := _format_address address_parts in
        (let* geocoded := await (to_latlon S address_str) in
         assign "manufacturing_location"
                (if truthy_opt geocoded then default "" geocoded else address_str))%step
  end.

(** Steps 3 and 4: website and description. *)
Definition find_website (S : Sources) (company_name : string) : Step unit :=
  (let* website := await (find_official_site S company_name) in
   if truthy_opt website then
     assign "company_url" (default "" website) ;;;
     let* description := await (grab_description S (default "" website)) in
     assign "description" description
   else ret tt)%step.

(** Step 5: employee counts from the filings. *)
Definition count_employees (S : Sources) (filings : Outcome (list FilingRecord))
  : Step unit :=
  match filings with
  | Returned (f :: fs) =>
      update (extract_headcount_from_filings (parsers S) (f :: fs) (http_client S))
  | _ => ret tt
  end.

Definition try_block (S : Sources) (company_number company_name : string) : Step unit :=
  let profile := fetch_profile S company_number in
  let filings := fetch_latest_filings S company_number in
  (locate S profile ;;;
   find_website S company_name ;;;
   count_employees S filings)%step.

(** [CompanyEnricher._perform_enrichment]: the two subscripts in front of the
    [try] raise [KeyError] on a record without the column; after that both the
    normal exit and the handler return [result]. *)
Definition _perform_enrichment (S : Sources) (company : gmap string string)
  : Outcome (gmap string string) :=
  match company !! "CompanyNumber", company !! "CompanyName" with
  | Some company_number, Some company_name =>
      Returned (snd (try_block S company_number company_name empty_result))
  | _, _ => Raised
  end.

(** *** Which await of the block raises *)

Definition geocoding_raises (S : Sources) (company_number : string) : bool :=
  match fetch_profile S company_number with
  | Returned p =>
      let address_parts := default ∅ (registered_office_address p) in
      if bool_decide (address_parts = ∅) then false
      else negb (is_returned (to_latlon S (_format_address address_parts)))
  | Raised => false
  end.

Definition search_raises (S : Sources) (company_name : string) : bool :=
  negb (is_returned (find_official_site S company_name)).

Definition scrape_raises (S : Sources) (company_name : string) : bool :=
  match find_official_site S company_name with
  | Returned website =>
      truthy_opt website && negb (is_returned (grab_description S (default "" website)))
  | Raised => false
  end.

(** *** Field-level isolation, as the specification words it

    Every step runs inside a handler of its own: whatever a step has assigned
    before it raised is kept, and the next step runs. *)
Definition contain (m : Step unit) : Step unit :=
  fun r => (Returned tt, snd (m r)).

Definition isolated_block (S : Sources) (company_number company_name : string)
  : Step unit :=
  let profile := fetch_profile S company_number in
  let filings := fetch_latest_filings S company_number in
  (contain (locate S profile) ;;;
   contain (find_website S company_name) ;;;
   contain (count_employees S filings))%step.

Definition isolated_result (S : Sources) (company_number company_name : string)
  : gmap string string :=
  snd (isolated_block S company_number company_name empty_result).

Definition perform_enrichment_isolated (S : Sources) (company : gmap string string)
  : Outcome (gmap string string) :=
  match company !! "CompanyNumber", company !! "CompanyName" with
  | Some company_number, Some company_name =>
      Returned (isolated_result S company_number company_name)
  | _, _ => Raised
  end.

(** A step that leaves a dictionary with the six fields a dictionary with
    the six fields. *)
Definition keeps_fields {A} (m : Step A) : Prop :=
  forall r, dom r = list_to_set result_fields ->
            dom (snd (m r)) = list_to_set result_fields.

(** *** Example records and sources *)

Definition acme : gmap string string :=
  <["CompanyName" := "Acme Ltd"]> (<["CompanyNumber" := "00041424"]> ∅).

Definition acme_address : gmap string string :=
  <["address_line_1" := "1 Main St"]> (<["locality" := "London"]>
  (<["postal_code" := "EC1 1AA"]> ∅)).

(** Nothing is found anywhere except the registered address. *)
Definition address_only : Sources :=
  {| fetch_profile := fun _ => Returned {| registered_office_address := Some acme_address |};
     fetch_latest_filings := fun _ => Returned [];
     to_latlon := fun _ => Returned None;
     find_official_site := fun _ => Returned None;
     grab_description := fun _ => Returned "";
     http_client := Some fragment_client;
     parsers := fragment_parsers |}.

(** The website search raises; the filing history holds one filing of 2023
    whose document yields 42 employees. *)
Definition search_fails : Sources :=
  {| fetch_profile := fun _ => Returned {| registered_office_address := Some acme_address |};
     fetch_latest_filings := fun _ => Returned fragment_filings;
     to_latlon := fun _ => Returned None;
     find_official_site := fun _ => Raised;
     grab_description := fun _ => Returned "";
     http_client := Some fragment_client;
     parsers := {| extract_employees_from_ixbrl := fun _ => Returned None;
                   extract_employees_from_pdf := fun _ => Returned (Some 42) |} |}.

(** The keys [_format_address] reads, in the order of the parts. *)
Definition address_keys : list string :=
  ["premises"; "address_line_1"; "address_line_2"; "locality";
   "region"; "postal_code"; "country"].

End Enricher.

(** ** [pipeline/batch.py], [pipeline/enricher.py], [cli.py]: the batch *)

Module Pipeline.

(** How a run of the batch ends. *)
Inductive Run (A : Type) : Type :=
| Completed (a : A)   (* returns its value *)
| Aborted             (* an exception leaves the call *)
| Blocked.            (* the call never returns *)
Arguments Completed {A} a.
Arguments Aborted {A}.
Arguments Blocked {A}.

Inductive FileFormat : Type := Csv | Parquet.

Section Batch.

(** A row of the input table: the original columns of one record. *)
Context {Row : Type}.

(** A table written to disk: its format and its rows, each the original
    columns followed by the six enrichment columns. *)
Record File : Type := mkFile {
  file_format : FileFormat;
  file_rows : list (Row * gmap string string)
}.

(** What awaiting [enricher.enrich_single_company] on the record at a given
    position of the frame yields in the gathered list
    ([return_exceptions=True]): a result or an exception. *)
Variable task : nat -> Row -> Outcome (gmap string string).

(** [_merge_results]: a horizontal concatenation.  The frames have the
    same height at every call of the driver; frames of different heights
    are rejected here. *)
Definition _merge_results (original_df : list Row)
           (results : list (gmap string string))
  : Outcome (list (Row * gmap string string)) :=
  if (length original_df =? length results)%nat
  then Returned (zip original_df results)
  else Raised.

(** [pl.read_csv(path)] *)
Definition read_csv (fs : gmap string File) (path : string)
  : Outcome (list (Row * gmap string string)) :=
  match fs !! path with
  | Some f => match file_format f with
              | Csv => Returned (file_rows f)
              | Parquet => Raised
              end
  | None => Raised
  end.

(** [save_checkpoint(df, filepath, mode)] *)
Definition save_checkpoint (df : list (Row * gmap string string))
           (filepath mode : string) (fs : gmap string File)
  : Outcome unit * gmap string File :=
  if String.eqb mode "append" && Text.endswith filepath ".csv" then
    let combined_df :=
      match read_csv fs filepath with
      | Returned existing_df => existing_df ++ df
      | Raised => df
      end in
    (Returned tt, <[filepath := mkFile Csv combined_df]> fs)
  else if Text.endswith filepath ".csv" then
    (Returned tt, <[filepath := mkFile Csv df]> fs)
  else if Text.endswith filepath ".parquet" then
    (Returned tt, <[filepath := mkFile Parquet df]> fs)
  else (Raised, fs).

(** [range(0, stop, step)] *)
Definition py_range (stop : nat) (step : Z) : Outcome (list nat) :=
  if step =? 0 then Raised
  else if step <? 0 then Returned []
  else
    let k := Z.to_nat step in
    Returned ((fun j => (j * k)%nat) <$> seq 0 ((stop + k - 1) / k)%nat).

(** The result that stands in for a task that raised. *)
Definition result_of (o : Outcome (gmap string string)) : gmap string string :=
  match o with
  | Returned r => r
  | Raised => Enricher.empty_result
  end.

(** What the gathered tasks of the whole frame come to, in the order of the
    frame: the result of each task, the empty result for a task that raised. *)
Definition expected_results (df : list Row) : list (gmap string string) :=
  imap (fun i company => result_of (task i company)) df.

(** The format [save_checkpoint] writes for a path it accepts. *)
Definition format_of (path : string) : FileFormat :=
  if Text.endswith path ".csv" then Csv else Parquet.

(** The checkpoint at the end of an iteration:
    [_merge_results(df.slice(0, len(enriched_results)), enriched_results)]
    written in [overwrite] mode. *)
Definition write_checkpoint (df : list Row) (output_path : string)
           (enriched_results : list (gmap string string))
           (fs : gmap string File)
  : Outcome unit * gmap string File :=
  match _merge_results (take (length enriched_results) df) enriched_results with
  | Returned checkpoint_df => save_checkpoint checkpoint_df output_path "overwrite" fs
  | Raised => (Raised, fs)
  end.

(** The iterations of the loop over the windows that start at [starts]:
    gather the batch, append its results, write the checkpoint.  On a
    semaphore without slots the tasks of a batch are never resumed. *)
Fixpoint run_windows (df : list Row) (output_path : string)
         (concurrency : Z) (checkpoint_every : nat) (starts : list nat)
         (enriched_results : list (gmap string string))
         (fs : gmap string File)
  : Run (list (gmap string string)) * gmap string File :=
  match starts with
  | [] => (Completed enriched_results, fs)
  | i :: rest =>
      let batch_end := Nat.min (i + checkpoint_every) (length df) in
      let batch := take (batch_end - i) (drop i df) in
      if (concurrency =? 0) && negb (length batch =? 0)%nat then (Blocked, fs) else
      let batch_results := imap (fun j company => task (i + j) company) batch in
      let enriched_results := enriched_results ++ (result_of <$> batch_results) in
      let '(saved, fs') :=
        if (i + length batch <? length df)%nat || (i + length batch =? length df)%nat
        then write_checkpoint df output_path enriched_results fs
        else (Returned tt, fs) in
      match saved with
      | Returned _ =>
          run_windows df output_path concurrency checkpoint_every
                      rest enriched_results fs'
      | Raised => (Aborted, fs')
      end
  end.

(** [enrich_dataframe(df, output_path, concurrency, checkpoint_every)]: the
    value returned and the files on disk.  [CompanyEnricher(concurrency)]
    builds the semaphore, which rejects a negative size. *)
Definition enrich_dataframe (df : list Row) (output_path : string)
           (concurrency checkpoint_every : Z) (fs : gmap string File)
  : Run (list (Row * gmap string string)) * gmap string File :=
  if concurrency <? 0 then (Aborted, fs) else
  match py_range (length df) checkpoint_every with
  | Raised => (Aborted, fs)
  | Returned starts =>
      match run_windows df output_path concurrency (Z.to_nat checkpoint_every)
                        starts [] fs with
      | (Completed enriched_results, fs') =>
          match _merge_results df enriched_results with
          | Returned final_df => (Completed final_df, fs')
          | Raised => (Aborted, fs')
          end
      | (Aborted, fs') => (Aborted, fs')
      | (Blocked, fs') => (Blocked, fs')
      end
  end.

(** The files on disk when the process running [enrich_dataframe] is killed
    right after the [m]-th iteration of the loop, that is after the [m]-th
    checkpoint. *)
Definition killed_after (m : nat) (df : list Row) (output_path : string)
           (concurrency checkpoint_every : Z) (fs : gmap string File)
  : gmap string File :=
  if concurrency <? 0 then fs else
  match py_range (length df) checkpoint_every with
  | Raised => fs
  | Returned starts =>
      snd (run_windows df output_path concurrency (Z.to_nat checkpoint_every)
                       (take m starts) [] fs)
  end.

(** The [enrich] command of [cli.py] on a loaded input table: the bounds
    of the options, the resume logic, the run. *)
Definition enrich (df : list Row) (output : string)
           (concurrency checkpoint : Z) (resume : bool)
           (fs : gmap string File)
  : Run (list (Row * gmap string string)) * gmap string File :=
  if (concurrency <? 1) || (50 <? concurrency) || (checkpoint <? 10)
  then (Aborted, fs)
  else
    let df :=
      if resume && bool_decide (is_Some (fs !! output)) then
        match read_csv fs output with
        | Returned existing_df => drop (length existing_df) df
        | Raised => df
        end
      else df in
    enrich_dataframe df output concurrency checkpoint fs.

End Batch.

(** *** A run of 25 records with a checkpoint every 10

    The rows are numbered; the enrichment of a row is the same whenever and
    wherever it runs. *)
Definition numbered_rows : list nat := seq 0 25.

Definition numbered_task (_ : nat) (row : nat) : Outcome (gmap string string) :=
  Returned (<["description" := pretty row]> Enricher.empty_result).

(** The rows of the output file. *)
Definition output_rows {Row} (fs : gmap string (@File Row)) (path : string)
  : option (list (Row * gmap string string)) :=
  file_rows <$> fs !! path.

(** The original columns of the rows of the output file. *)
Definition output_records {Row} (fs : gmap string (@File Row)) (path : string)
  : option (list Row) :=
  match output_rows fs path with
  | Some rows => Some (fst <$> rows)
  | None => None
  end.

(** The number of rows [read_csv] finds at a path, as the resume logic
    counts them. *)
Definition row_count {Row} (fs : gmap string (@File Row)) (path : string)
  : option nat :=
  match read_csv fs path with
  | Returned rows => Some (length rows)
  | Raised => None
  end.

(** [CompanyEnricher.enrich_single_company] as a task of the batch: the
    enrichment of the record, with the collaborators as they answer for the
    record at that position. *)
Definition enrich_single_company (sources : nat -> Enricher.Sources)
           (i : nat) (company : gmap string string)
  : Outcome (gmap string string) :=
  Enricher._perform_enrichment (sources i) company.

End Pipeline.

(** ** [pipeline/batch.py]: chunks, the batch processor, the progress tracker *)

Module Batch.

Import Pipeline.

Section Chunks.

Context {Row : Type}.

(** [dataframe_chunker(df, chunk_size)]: the chunks the generator yields, in
    order; [range] rejects a zero step when the generator is first advanced. *)
Definition dataframe_chunker (df : list Row) (chunk_size : Z)
  : Outcome (list (list Row)) :=
  match py_range (length df) chunk_size with
  | Raised => Raised
  | Returned starts =>
      Returned ((fun start =>
                   let end_ := Nat.min (start + Z.to_nat chunk_size) (length df) in
                   take (end_ - start) (drop start df)) <$> starts)
  end.

End Chunks.

Section Processor.

Context {T R : Type}.

(** What awaiting the processor on the item at a given position yields in
    the gathered list of its batch: a result or an exception. *)
Variable processor : nat -> T -> Outcome R.

(** The checkpoint callback, when there is one: whether it returns or
    raises on the results it is handed. *)
Variable checkpoint_callback : option (list (Outcome R) -> Outcome unit).

(** The iterations of the loop of [process_items] over the batches that
    start at [starts]; the last component lists, in order, the result lists
    handed to the callback. *)
Fixpoint process_batches (items : list T) (batch_size : nat)
         (max_concurrency checkpoint_every : Z) (starts : list nat)
         (results : list (Outcome R)) (processed_count : nat)
         (handed : list (list (Outcome R)))
  : Run (list (Outcome R)) * list (list (Outcome R)) :=
  match starts with
  | [] => (Completed results, handed)
  | i :: rest =>
      let batch := take batch_size (drop i items) in
      if (max_concurrency =? 0) && negb (length batch =? 0)%nat
      then (Blocked, handed) else
      let batch_results := imap (fun j item => processor (i + j)%nat item) batch in
      let results := results ++ batch_results in
      let processed_count := (processed_count + length batch)%nat in
      match checkpoint_callback with
      | None =>
          process_batches items batch_size max_concurrency checkpoint_every
                          rest results processed_count handed
      | Some callback =>
          if checkpoint_every =? 0 then (Aborted, handed)
          else if Z.of_nat processed_count mod checkpoint_every =? 0 then
            let snapshot := take processed_count results in
            match callback snapshot with
            | Returned _ =>
                process_batches items batch_size max_concurrency checkpoint_every
                                rest results processed_count (handed ++ [snapshot])
            | Raised => (Aborted, handed ++ [snapshot])
            end
          else
            process_batches items batch_size max_concurrency checkpoint_every
                            rest results processed_count handed
      end
  end.

(** [BatchProcessor(batch_size, max_concurrency, checkpoint_callback)
    .process_items(items, processor, checkpoint_every)]; the constructor
    builds the semaphore, which rejects a negative size. *)
Definition process_items (batch_size max_concurrency : Z) (items : list T)
           (checkpoint_every : Z)
  : Run (list (Outcome R)) * list (list (Outcome R)) :=
  if max_concurrency <? 0 then (Aborted, []) else
  match py_range (length items) batch_size with
  | Raised => (Aborted, [])
  | Returned starts =>
      process_batches items (Z.to_nat batch_size) max_concurrency checkpoint_every
                      starts [] 0 []
  end.

(** A callback that always returns. *)
Definition returns_always (callback : list (Outcome R) -> Outcome unit) : Prop :=
  forall results, callback results = Returned tt.

End Processor.

(** The counters of a [ProgressTracker]; [reports] counts the progress lines
    it has logged. *)
Record ProgressTracker : Type := mkTracker {
  total_items : Z;
  report_every : Z;
  processed : Z;
  successful : Z;
  failed : Z;
  reports : nat
}.

(** [ProgressTracker(total_items, report_every)] *)
Definition tracker (total report : Z) : ProgressTracker :=
  {| total_items := total; report_every := report;
     processed := 0; successful := 0; failed := 0; reports := 0 |}.

(** [ProgressTracker.update(success)]: the counters first; then the modulus,
    which raises on a zero [report_every]; then, every [report_every]-th
    time, [report()], whose percentage raises on a zero [total_items]. *)
Definition update (t : ProgressTracker) (success : bool)
  : Outcome unit * ProgressTracker :=
  let t1 := {| total_items := total_items t; report_every := report_every t;
               processed := processed t + 1;
               successful := if success then successful t + 1 else successful t;
               failed := if success then failed t else failed t + 1;
               reports := reports t |} in
  if report_every t =? 0 then (Raised, t1)
  else if processed t1 mod report_every t =? 0 then
    if total_items t =? 0 then (Raised, t1)
    else (Returned tt,
          {| total_items := total_items t1; report_every := report_every t1;
             processed := processed t1; successful := successful t1;
             failed := failed t1; reports := S (reports t1) |})
  else (Returned tt, t1).

(** A sequence of updates, each made whatever the one before it did: the
    outcomes and the tracker they leave. *)
Fixpoint updates (t : ProgressTracker) (l : list bool)
  : list (Outcome unit) * ProgressTracker :=
  match l with
  | [] => ([], t)
  | success :: rest =>
      let '(o, t1) := update t success in
      let '(os, t2) := updates t1 rest in
      (o :: os, t2)
  end.

(** What the callback may be handed under a given [checkpoint_every]: the
    first results of the run, in order, their number a multiple of
    [checkpoint_every]. *)
Definition is_checkpoint {R} (all : list (Outcome R)) (checkpoint_every : Z)
           (snapshot : list (Outcome R)) : Prop :=
  snapshot = take (length snapshot) all /\
  Z.of_nat (length snapshot) mod checkpoint_every = 0.

(** The number of [True] among the flags of a sequence of updates. *)
Definition successes_in (l : list bool) : Z :=
  Z.of_nat (length (filter (fun b => b = true) l)).

Definition failures_in (l : list bool) : Z :=
  Z.of_nat (length (filter (fun b => b = false) l)).

End Batch.

(** ** [fetchers/web_search.py]: the choice among the search results *)

Module WebSearch.

Import Text.

(** The sites [search_company_website] passes over. *)
Definition skipped_sites : list string :=
  ["facebook.com"; "twitter.com"; "linkedin.com"; "instagram.com";
   "companies-house.gov.uk"; "companieshouse.gov.uk";
   "yell.com"; "yelp.com"; "trustpilot.com";
   "wikipedia.org"; "wikidata.org"].

(** [any(skip in url.lower() for skip in [...])] *)
Definition skipped (url : string) : bool :=
  existsb (fun skip => contains skip (lower url)) skipped_sites.

Section Search.

(** [is_valid_business_domain(url, company_name)], taken as given: it
    answers [False] where it fails. *)
Variable is_valid_business_domain : string -> string -> bool.

(** The loop over the results of the query. *)
Fixpoint first_site (company_name : string) (results : list (gmap string string))
  : option string :=
  match results with
  | [] => None
  | result :: rest =>
      let url := default "" (result !! "href") in
      if negb (truthy url) then first_site company_name rest
      else if skipped url then first_site company_name rest
      else if is_valid_business_domain url company_name then Some url
      else first_site company_name rest
  end.

(** [DuckDuckGoSearcher.search_company_website]: a token is taken from the
    limiter, then the query is made; [query] is what the query yields, its
    results or an exception, which the handler turns into [None]. *)
Definition search_company_website (rl : Limiter.RateLimiter) (now : Q)
           (company_name : string) (query : Outcome (list (gmap string string)))
  : option string * Limiter.RateLimiter :=
  let rl' := snd (Limiter.acquire rl now 1) in
  match query with
  | Returned results => (first_site company_name results, rl')
  | Raised => (None, rl')
  end.

(** [result.get("href", "")] *)
Definition href (result : gmap string string) : string :=
  default "" (result !! "href").

(** A link the loop returns when it reaches it. *)
Definition acceptable (company_name url : string) : bool :=
  truthy url && negb (skipped url) && is_valid_business_domain url company_name.

End Search.

End WebSearch.

(** ** The semaphore of [CompanyEnricher]

    [enrich_dataframe] builds one [CompanyEnricher], hence one
    [asyncio.Semaphore(concurrency)], for the whole run.  Each record of a
    window becomes a task running
    [async with self.semaphore: return await self._perform_enrichment(company)]:
    the task waits until it takes a slot, enriches while it holds the slot,
    and gives the slot back when the enrichment ends, by a result or by an
    exception.  The next window is launched when every task of the current
    one has ended.  The event loop interleaves the tasks in any order; the
    transition system below has one step for each thing a task, or the
    driver, can do next. *)

Module Semaphore.

Inductive Phase : Type :=
| Waiting      (* before [async with] has taken a slot *)
| Enriching    (* inside [_perform_enrichment], holding a slot *)
| Ended.       (* the slot has been released *)

Global Instance Phase_eq_dec : EqDecision Phase.
Proof. solve_decision. Defined.

Record State : Type := mkState {
  value : nat;            (* free slots of the semaphore *)
  window : list Phase;    (* the tasks of the current window *)
  later : list nat        (* sizes of the windows still to be launched *)
}.

Inductive step : State -> State -> Prop :=
| step_acquire v w l i :
    w !! i = Some Waiting ->
    step (mkState (S v) w l) (mkState v (<[i := Enriching]> w) l)
| step_release v w l i :
    w !! i = Some Enriching ->
    step (mkState v w l) (mkState (S v) (<[i := Ended]> w) l)
| step_next_window v w n l :
    Forall (fun p => p = Ended) w ->
    step (mkState v w (n :: l)) (mkState v (replicate n Waiting) l).

(** The run starts with all slots free and no task launched. *)
Definition start (concurrency : nat) (windows : list nat) : State :=
  mkState concurrency [] windows.

(** The number of records being enriched. *)
Definition enriching (s : State) : nat :=
  length (filter (fun p => p = Enriching) (window s)).

(** What a task contributes to that number. *)
Definition weight (p : Phase) : nat :=
  match p with Enriching => 1%nat | _ => 0%nat end.

(** The steps a task still has to take: take a slot and give it back. *)
Definition work (p : Phase) : nat :=
  match p with Waiting => 2%nat | Enriching => 1%nat | Ended => 0%nat end.

(** The steps the run still has to take: those of the tasks of the current
    window and, for every window to come, its launch and those of its
    tasks. *)
Definition remaining (s : State) : nat :=
  (sum_list_with work (window s)
   + sum_list_with (fun n => S (2 * n)) (later s))%nat.

(** The run is over: every task has ended and no window is left. *)
Definition finished (s : State) : Prop :=
  Forall (fun p => p = Ended) (window s) /\ later s = [].

End Semaphore.

(** * Facts *)

(** ** Rationals *)

Lemma Qlt_bool_iff x y : Qlt_bool x y = true <-> (x < y)%Q.
Proof.
  unfold Qlt_bool. rewrite negb_true_iff. split.
  - intros H. apply Qnot_le_lt. intros Hle.
    apply Qle_bool_iff in Hle. congruence.
  - intros H. destruct (Qle_bool y x) eqn:E; [|reflexivity].
    apply Qle_bool_iff in E. exfalso. exact (Qlt_not_le _ _ H E).
Qed.

Lemma Qlt_bool_false x y : Qlt_bool x y = false <-> (y <= x)%Q.
Proof.
  unfold Qlt_bool. rewrite negb_false_iff. apply Qle_bool_iff.
Qed.

Lemma py_min_le_l a b : (py_min a b <= a)%Q.
Proof.
  unfold py_min. destruct (Qlt_bool b a) eqn:E.
  - apply Qlt_bool_iff in E. apply Qlt_le_weak, E.
  - apply Qle_refl.
Qed.

Lemma py_min_glb a b c : (c <= a)%Q -> (c <= b)%Q -> (c <= py_min a b)%Q.
Proof. unfold py_min. destruct (Qlt_bool b a); auto. Qed.

Lemma py_int_floor x : (0 <= x)%Q -> py_int x = Qfloor x.
Proof.
  intros H. destruct x as [n d]. unfold py_int, Qfloor. simpl.
  apply Z.quot_div_nonneg; [|lia].
  unfold Qle in H. simpl in H. lia.
Qed.

Lemma py_int_nonneg x : (0 <= x)%Q -> 0 <= py_int x.
Proof.
  intros H. rewrite py_int_floor by exact H.
  change 0 with (Qfloor (inject_Z 0)). apply Qfloor_resp_le. exact H.
Qed.

Lemma py_int_le_Z x (b : Z) : (0 <= x)%Q -> (x <= inject_Z b)%Q -> py_int x <= b.
Proof.
  intros H0 H. rewrite py_int_floor by exact H0.
  rewrite <- (Qfloor_Z b). apply Qfloor_resp_le. exact H.
Qed.

Lemma inject_Z_nonneg (z : Z) : 0 <= z -> (0 <= inject_Z z)%Q.
Proof. intros H. unfold Qle. simpl. lia. Qed.

(** ** The rate limiter *)

Module LimiterFacts.

Import Limiter.

Lemma default_burst_size_pos rate : 1 <= default_burst_size rate.
Proof. unfold default_burst_size. lia. Qed.

Lemma init_ok rate burst now :
  (0 < rate)%Q ->
  (forall b, burst = Some b -> 0 <= b) ->
  bucket_ok (init rate burst now) /\
  (tokens (init rate burst now) <= inject_Z (burst_size (init rate burst now)))%Q.
Proof.
  intros Hrate Hburst. unfold bucket_ok, init. simpl.
  assert (Hb : 0 <= match burst with
                    | Some b => if b =? 0 then default_burst_size rate else b
                    | None => default_burst_size rate
                    end).
  { pose proof (default_burst_size_pos rate).
    destruct burst as [b|]; [|lia].
    specialize (Hburst b eq_refl). destruct (b =? 0); lia. }
  split; [|apply Qle_refl].
  split; [exact Hrate|]. split; [apply inject_Z_nonneg, Hb | exact Hb].
Qed.

Lemma refill_tokens_bounds rl now :
  bucket_ok rl -> (last_update rl <= now)%Q ->
  (0 <= tokens (refill rl now) <= inject_Z (burst_size rl))%Q.
Proof.
  intros (Hrate & H0 & Hb) Hnow. apply inject_Z_nonneg in Hb. simpl. split.
  - apply py_min_glb; [exact Hb|]. nra.
  - apply py_min_le_l.
Qed.

Lemma refill_ok rl now :
  bucket_ok rl -> (last_update rl <= now)%Q -> bucket_ok (refill rl now).
Proof.
  intros Hok Hnow. destruct (refill_tokens_bounds rl now Hok Hnow) as [H0 _].
  destruct Hok as (Hrate & _ & Hb). repeat split; assumption.
Qed.

(** A call of any cost leaves a count that is not negative; a call whose
    cost is not negative leaves a count within the burst size. *)
Lemma acquire_ok rl now cost :
  bucket_ok rl -> (last_update rl <= now)%Q ->
  bucket_ok (snd (acquire rl now cost)) /\
  burst_size (snd (acquire rl now cost)) = burst_size rl /\
  last_update (snd (acquire rl now cost)) = now /\
  (0 <= cost ->
   (tokens (snd (acquire rl now cost)) <= inject_Z (burst_size rl))%Q).
Proof.
  intros Hok Hnow.
  destruct (refill_tokens_bounds rl now Hok Hnow) as [H0 Hb].
  destruct Hok as (Hrate & _ & Hburst).
  unfold acquire.
  set (t := tokens (refill rl now)) in *.
  destruct (Qlt_bool t (inject_Z cost)) eqn:E.
  - split; [|split; [reflexivity | split; [reflexivity|]]].
    + unfold bucket_ok. simpl. split; [exact Hrate|]. split; [lra | exact Hburst].
    + intros _. simpl. lra.
  - apply Qlt_bool_false in E.
    split; [|split; [reflexivity | split; [reflexivity|]]].
    + unfold bucket_ok. simpl. fold t. split; [exact Hrate|]. split; [lra | exact Hburst].
    + intros Hcost. apply inject_Z_nonneg in Hcost. simpl. fold t. lra.
Qed.

Lemma run_ok calls : forall rl,
  bucket_ok rl -> clock_ok (last_update rl) calls ->
  bucket_ok (run rl calls) /\
  burst_size (run rl calls) = burst_size rl /\
  ((tokens rl <= inject_Z (burst_size rl))%Q ->
   Forall (fun c => 0 <= snd c) calls ->
   (tokens (run rl calls) <= inject_Z (burst_size rl))%Q).
Proof.
  induction calls as [|[now cost] calls IH]; intros rl Hok Hclock.
  - simpl. split; [exact Hok|]. split; [reflexivity|]. intros H _. exact H.
  - destruct Hclock as [Hnow Hrest].
    destruct (acquire_ok rl now cost Hok Hnow) as (Hok1 & Hb1 & Hl1 & Ht1).
    simpl run. destruct (IH (snd (acquire rl now cost)) Hok1) as (Hok2 & Hb2 & Ht2).
    { rewrite Hl1. exact Hrest. }
    split; [exact Hok2|]. split; [congruence|].
    intros _ Hcosts. apply Forall_cons in Hcosts as [Hcost Hcosts].
    rewrite <- Hb1. apply Ht2; [|exact Hcosts].
    rewrite Hb1. apply Ht1. exact Hcost.
Qed.

Lemma available_tokens_bounds rl now :
  bucket_ok rl -> (last_update rl <= now)%Q ->
  0 <= available_tokens rl now <= burst_size rl.
Proof.
  intros Hok Hnow.
  destruct (refill_tokens_bounds rl now Hok Hnow) as [H0 Hb].
  simpl in H0, Hb. unfold available_tokens. split.
  - apply py_int_nonneg, H0.
  - apply py_int_le_Z; assumption.
Qed.

(** C3.  Take a limiter built with a positive rate and any sequence of
    [acquire] calls on it, of any integer costs, with clock readings that do
    not run backwards.  In the state the sequence leaves the token count is
    not negative; after a refill at any later time it lies within
    [0, burst_size]; [available_tokens()] answers a number between 0 and
    [burst_size], between two calls as well as while a call sleeps after its
    refill; and when the costs are token counts (not negative) the count at
    rest is at most [burst_size] too. *)
Theorem token_bucket_bound (rate : Q) (burst : option Z) (t0 : Q)
        (calls : list (Q * Z)) :
  (0 < rate)%Q ->
  (forall b, burst = Some b -> 0 <= b) ->
  clock_ok t0 calls ->
  let rl := run (init rate burst t0) calls in
  (0 <= tokens rl)%Q /\
  (Forall (fun c => 0 <= snd c) calls -> (tokens rl <= inject_Z (burst_size rl))%Q) /\
  forall now, (last_update rl <= now)%Q ->
    (0 <= tokens (refill rl now) <= inject_Z (burst_size rl))%Q /\
    0 <= available_tokens rl now <= burst_size rl /\
    forall later, (now <= later)%Q ->
      0 <= available_tokens (refill rl now) later <= burst_size rl.
Proof.
  intros Hrate Hburst Hclock rl.
  destruct (init_ok rate burst t0 Hrate Hburst) as [Hok0 Hfull].
  destruct (run_ok calls (init rate burst t0) Hok0 Hclock) as (Hok & Hb & Ht).
  fold rl in Hok, Hb, Ht.
  split; [|split].
  - destruct Hok as (_ & H0 & _). exact H0.
  - intros Hcosts. rewrite Hb. apply Ht; assumption.
  - intros now Hnow. split; [|split].
    + apply refill_tokens_bounds; assumption.
    + apply available_tokens_bounds; assumption.
    + intros later Hlater.
      apply (available_tokens_bounds (refill rl now) later);
        [apply refill_ok; assumption | exact Hlater].
Qed.

Lemma token_bucket_bound_witness :
  let rl := run (init 2 (Some 1) 0) [(0%Q, 1); (1 # 4, 1); (1 # 2, 3)] in
  (0 <= tokens rl)%Q /\
  (Forall (fun c => 0 <= snd c) [(0%Q, 1); (1 # 4, 1); (1 # 2, 3)] ->
   (tokens rl <= inject_Z (burst_size rl))%Q) /\
  forall now, (last_update rl <= now)%Q ->
    (0 <= tokens (refill rl now) <= inject_Z (burst_size rl))%Q /\
    0 <= available_tokens rl now <= burst_size rl /\
    forall later, (now <= later)%Q ->
      0 <= available_tokens (refill rl now) later <= burst_size rl.
Proof.
  apply (token_bucket_bound 2 (Some 1) 0 [(0%Q, 1); (1 # 4, 1); (1 # 2, 3)]).
  - reflexivity.
  - intros b Hb. injection Hb as <-. lia.
  - simpl. repeat split; vm_compute; discriminate.
Defined.

(** *** The default burst size *)

(** C8, as stated, fails: at [max_rate = 0.8] the constructor truncates
    [1.6] to 1, where rounding gives 2. *)
Lemma default_burst_is_not_rounded :
  burst_size (init (4 # 5) None 0) <> Z.max 1 (py_round ((4 # 5) * 2)).
Proof. vm_compute. discriminate. Qed.

(** C8, amended.  For every positive [max_rate], a limiter built without an
    explicit [burst_size] has [burst_size = max(1, floor(max_rate * 2))]: the
    product is truncated, not rounded. *)
Theorem default_burst_is_truncated (rate now : Q) :
  (0 < rate)%Q ->
  burst_size (init rate None now) = Z.max 1 (Qfloor (rate * 2)).
Proof.
  intros Hrate. simpl. unfold default_burst_size.
  rewrite py_int_floor; [reflexivity | lra].
Qed.

Lemma default_burst_is_truncated_witness :
  burst_size (init (4 # 5) None 0) = Z.max 1 (Qfloor ((4 # 5) * 2)).
Proof. apply default_burst_is_truncated. reflexivity. Defined.

(** *** The adaptive limiter *)

Lemma record_success_below a :
  consecutive_successes a + 1 < 10 ->
  record_success a =
  {| base := base a; min_rate := min_rate a; current_rate := current_rate a;
     consecutive_successes := consecutive_successes a + 1;
     recent_failures := Z.max 0 (recent_failures a - 1) |}.
Proof.
  intros H. unfold record_success.
  destruct (10 <=? consecutive_successes a + 1) eqn:E; [|reflexivity].
  apply Z.leb_le in E. lia.
Qed.

Lemma successes_below (k : nat) a :
  consecutive_successes a + Z.of_nat k < 10 ->
  base (successes k a) = base a /\
  min_rate (successes k a) = min_rate a /\
  current_rate (successes k a) = current_rate a /\
  consecutive_successes (successes k a) = consecutive_successes a + Z.of_nat k.
Proof.
  induction k as [|k IH]; intros H.
  - simpl. repeat split; lia.
  - destruct IH as (Hb & Hm & Hc & Hs); [lia|].
    unfold successes in *. simpl Nat.iter.
    rewrite record_success_below by lia. simpl.
    repeat split; try assumption. lia.
Qed.

(** The tenth success in a row, below the ceiling: the rate climbs by 10 %,
    and the same assignment overwrites the ceiling with the new rate. *)
Lemma record_success_climbs a :
  consecutive_successes a = 9 ->
  (0 < current_rate a)%Q ->
  (current_rate a * (11 # 10) <= max_rate (base a))%Q ->
  (current_rate (record_success a) == current_rate a * (11 # 10))%Q /\
  (max_rate (base (record_success a)) == current_rate a * (11 # 10))%Q /\
  consecutive_successes (record_success a) = 0.
Proof.
  intros Hcs Hpos Hle. unfold record_success. rewrite Hcs. simpl (10 <=? 9 + 1).
  cbv iota.
  assert (Hmin : (py_min (max_rate (base a)) (current_rate a * (11 # 10))
                  == current_rate a * (11 # 10))%Q).
  { unfold py_min. destruct (Qlt_bool _ _) eqn:E; [reflexivity|].
    apply Qlt_bool_false in E. lra. }
  destruct (Qeq_bool _ _) eqn:E; simpl.
  - apply Qeq_bool_iff in E. rewrite Hmin in E. lra.
  - repeat split; exact Hmin || reflexivity.
Qed.

(** Once the ceiling equals the current rate, no number of successes moves
    the rate. *)
Lemma record_success_stuck a :
  (max_rate (base a) == current_rate a)%Q ->
  (0 <= current_rate a)%Q ->
  current_rate (record_success a) = current_rate a /\
  base (record_success a) = base a.
Proof.
  intros Heq Hpos. unfold record_success.
  destruct (10 <=? _); [|split; reflexivity].
  assert (Hmin : (py_min (max_rate (base a)) (current_rate a * (11 # 10))
                  == current_rate a)%Q).
  { unfold py_min. destruct (Qlt_bool _ _) eqn:E; [|exact Heq].
    apply Qlt_bool_iff in E. lra. }
  apply Qeq_bool_iff in Hmin. rewrite Hmin. simpl. split; reflexivity.
Qed.

Lemma successes_stuck (n : nat) a :
  (max_rate (base a) == current_rate a)%Q ->
  (0 <= current_rate a)%Q ->
  current_rate (successes n a) = current_rate a /\
  base (successes n a) = base a.
Proof.
  intros Heq Hpos. induction n as [|n [IHc IHb]].
  - split; reflexivity.
  - unfold successes in *. simpl Nat.iter.
    destruct (record_success_stuck (Nat.iter n record_success a)) as [Hc Hb].
    + rewrite IHc, IHb. exact Heq.
    + rewrite IHc. exact Hpos.
    + split; congruence.
Qed.

(** C4, what the code does.  With the ceiling above the first climb, ten
    successes raise the rate by 10 %; the assignment [self.max_rate =
    new_rate] then leaves the ceiling equal to the rate, and no further run
    of successes raises it again: after [10 + n] successes the rate is still
    1.1 times the initial one. *)
Theorem adaptive_climb_stalls (initial min_r max_r now : Q) (n : nat) :
  (0 < initial)%Q ->
  (initial * (11 # 10) <= max_r)%Q ->
  (current_rate (successes (n + 10) (adaptive_init initial min_r max_r now))
   == initial * (11 # 10))%Q.
Proof.
  intros Hpos Hle. unfold successes. rewrite Nat.iter_add.
  fold (successes 10 (adaptive_init initial min_r max_r now)).
  set (a0 := adaptive_init initial min_r max_r now).
  destruct (successes_below 9 a0) as (Hb & Hm & Hc & Hs); [simpl; lia|].
  change (successes 10 a0) with (record_success (successes 9 a0)).
  destruct (record_success_climbs (successes 9 a0)) as (Hrate & Hceil & _).
  - rewrite Hs. reflexivity.
  - rewrite Hc. exact Hpos.
  - rewrite Hc, Hb. exact Hle.
  - fold (successes n (record_success (successes 9 a0))).
    destruct (successes_stuck n (record_success (successes 9 a0))) as [Hstuck _].
    + rewrite Hrate, Hceil. reflexivity.
    + rewrite Hrate, Hc. simpl. lra.
    + rewrite Hstuck, Hrate, Hc. reflexivity.
Qed.

Lemma adaptive_climb_stalls_witness :
  (current_rate (successes (10 + 10) (adaptive_init 1 (1 # 10) 5 0))
   == 1 * (11 # 10))%Q.
Proof.
  apply (adaptive_climb_stalls 1 (1 # 10) 5 0 10).
  - reflexivity.
  - vm_compute. discriminate.
Defined.

(** The second run of ten successes at the failing input: the rate stays at
    1.1 instead of reaching 1.21, far below the configured ceiling 5. *)
Lemma adaptive_second_run :
  let a := adaptive_init 1 (1 # 10) 5 0 in
  (current_rate (successes 10 a) == 11 # 10)%Q /\
  (current_rate (successes 20 a) == 11 # 10)%Q /\
  ~ (current_rate (successes 20 a) == 121 # 100)%Q /\
  (max_rate (base (successes 10 a)) == 11 # 10)%Q.
Proof. vm_compute. repeat split; discriminate. Qed.

End LimiterFacts.

(** ** The [cached] decorator *)

Module CacheFacts.

Import Cache.

Section Cached.

Context {Args Value World : Type}.
Variable hash_args : Args -> Z.
Variables (key_prefix func_name : string) (ttl_seconds : Z).
Variable func : Args -> World -> Outcome (option Value) * World.

Local Abbreviation key := (cache_key hash_args key_prefix func_name).
Local Abbreviation wrapper := (wrapper hash_args key_prefix func_name ttl_seconds func).
Local Abbreviation calls := (calls hash_args key_prefix func_name ttl_seconds func).

Lemma none_at_lookup (c : gmap string (@Entry Value)) k now f :
  none_at c k -> lookup_result c k now f = None.
Proof.
  intros H. unfold lookup_result, cache_get.
  destruct (get_raises f); [reflexivity|].
  destruct (c !! k) as [e|] eqn:E; [|reflexivity].
  destruct (now <? expire_time e); [|reflexivity]. apply H, E.
Qed.

Lemma none_at_set (c : gmap string (@Entry Value)) k now :
  none_at (cache_set ttl_seconds c k None now) k.
Proof.
  intros e. unfold cache_set. rewrite lookup_insert_eq.
  intros [= <-]. reflexivity.
Qed.

(** On a miss the wrapper is the wrapped function: same result, same
    effect on the world. *)
Lemma wrapper_miss args now f c w :
  lookup_result c (key args) now f = None ->
  fst (wrapper args now f (c, w)) = fst (func args w) /\
  snd (snd (wrapper args now f (c, w))) = snd (func args w).
Proof.
  intros H. unfold Cache.wrapper. rewrite H.
  destruct (func args w) as [[r|] w']; split; reflexivity.
Qed.

Lemma wrapper_none args now f c w :
  (forall w, fst (func args w) = Returned None) ->
  none_at c (key args) ->
  fst (wrapper args now f (c, w)) = Returned None /\
  snd (snd (wrapper args now f (c, w))) = snd (func args w) /\
  none_at (fst (snd (wrapper args now f (c, w)))) (key args).
Proof.
  intros Hnone Hc. unfold Cache.wrapper.
  rewrite (none_at_lookup _ _ now f Hc).
  specialize (Hnone w). destruct (func args w) as [[r|] w']; simpl in *.
  - injection Hnone as ->. repeat split.
    destruct (set_raises f); [exact Hc | apply none_at_set].
  - discriminate.
Qed.

Lemma calls_cons args now f l st :
  calls args ((now, f) :: l) st =
  (fst (wrapper args now f st) :: fst (calls args l (snd (wrapper args now f st))),
   snd (calls args l (snd (wrapper args now f st)))).
Proof.
  simpl. destruct (wrapper args now f st) as [r st1].
  simpl. destruct (calls args l st1) as [rs st2]. reflexivity.
Qed.

Lemma invoke_n_shift args n w :
  invoke_n func args n (snd (func args w)) = invoke_n func args (S n) w.
Proof.
  unfold invoke_n. induction n as [|n IH]; [reflexivity|].
  simpl in *. rewrite IH. reflexivity.
Qed.

Lemma calls_none args l : forall c w,
  (forall w, fst (func args w) = Returned None) ->
  none_at c (key args) ->
  fst (calls args l (c, w)) = replicate (length l) (Returned None) /\
  snd (snd (calls args l (c, w))) = invoke_n func args (length l) w /\
  none_at (fst (snd (calls args l (c, w)))) (key args).
Proof.
  induction l as [|[now f] l IH]; intros c w Hnone Hc.
  - simpl. repeat split. exact Hc.
  - destruct (wrapper_none args now f c w Hnone Hc) as (Hr & Hw & Hc1).
    rewrite calls_cons.
    destruct (wrapper args now f (c, w)) as [r [c1 w1]].
    simpl in Hr, Hw, Hc1. subst r w1.
    destruct (IH c1 (snd (func args w)) Hnone Hc1) as (Hrs & Hws & Hcs).
    cbn [fst snd length replicate]. rewrite Hrs, Hws, invoke_n_shift.
    repeat split. exact Hcs.
Qed.

(** C10.  Let the wrapped computation answer [None] for [args].  A call
    that misses runs the computation and, when the write succeeds, stores
    its [None] under the key.  From then on every call with the same
    arguments, at any time and whatever the cache does, answers [None] by
    running the computation once more: after [n] further calls the world
    is the one [n] further invocations leave.  And whenever the wrapper
    answers without running the computation, what it answers is not
    [None]. *)
Theorem memoized_none_is_a_miss (args : Args) :
  (forall w, fst (func args w) = Returned None) ->
  (forall c w now f l,
      lookup_result c (key args) now f = None ->
      set_raises f = false ->
      let first := wrapper args now f (c, w) in
      fst first = Returned None /\
      fst (snd first) !! key args
        = Some {| stored := None; expire_time := now + ttl_seconds |} /\
      fst (calls args l (snd first)) = replicate (length l) (Returned None) /\
      snd (snd (calls args l (snd first)))
        = invoke_n func args (S (length l)) w) /\
  (forall args' c w now f,
      (exists v, wrapper args' now f (c, w) = (Returned (Some v), (c, w))) \/
      (fst (wrapper args' now f (c, w)) = fst (func args' w) /\
       snd (snd (wrapper args' now f (c, w))) = snd (func args' w))).
Proof.
  intros Hnone. split.
  - intros c w now f l Hmiss Hset first.
    assert (Hfirst : first = (Returned None,
              (cache_set ttl_seconds c (key args) None now, snd (func args w)))).
    { subst first. unfold Cache.wrapper. rewrite Hmiss, Hset.
      specialize (Hnone w). destruct (func args w) as [[r|] w']; simpl in *.
      - injection Hnone as ->. reflexivity.
      - discriminate. }
    rewrite Hfirst. simpl.
    split; [reflexivity|]. split; [apply lookup_insert_eq|].
    destruct (calls_none args l (cache_set ttl_seconds c (key args) None now)
                         (snd (func args w)) Hnone (none_at_set _ _ _))
      as (Hrs & Hws & _).
    split; [exact Hrs|]. rewrite Hws. apply invoke_n_shift.
  - intros args' c w now f.
    destruct (lookup_result c (key args') now f) as [v|] eqn:E.
    + left. exists v. unfold Cache.wrapper. rewrite E. reflexivity.
    + right. apply wrapper_miss, E.
Qed.

End Cached.

Lemma memoized_none_is_a_miss_witness :
  let first := wrapper (fun z => z) "p" "f" 60 counting_none 7 0
                       (mkFaults false false) (∅, 0%nat) in
  let rest := calls (fun z => z) "p" "f" 60 counting_none 7
                    [(1, mkFaults false false); (2, mkFaults true false);
                     (100, mkFaults false true)] (snd first) in
  fst rest = replicate 3 (Returned None) /\ snd (snd rest) = 4%nat.
Proof.
  destruct (memoized_none_is_a_miss (fun z => z) "p" "f" 60 counting_none 7
              (fun w => eq_refl)) as [H _].
  destruct (H ∅ 0%nat 0 (mkFaults false false)
              [(1, mkFaults false false); (2, mkFaults true false);
               (100, mkFaults false true)])
    as (_ & _ & Hrs & Hws).
  - vm_compute. reflexivity.
  - reflexivity.
  - split; [exact Hrs | exact Hws].
Defined.

End CacheFacts.

(** ** Headcounts from the filings *)

Module CompaniesHouseFacts.

Import Text CompaniesHouse.

(** *** Decimal numerals are not empty *)

Lemma pretty_N_go_length (x : N) : forall s,
  (String.length s <= String.length (pretty_N_go x s))%nat.
Proof.
  induction (N.lt_wf_0 x) as [x _ IH]. intros s.
  destruct (N.eq_dec x 0%N) as [->|Hx].
  - rewrite pretty_N_go_0. lia.
  - rewrite pretty_N_go_step by lia.
    etransitivity; [|apply IH; apply N.div_lt; lia]. simpl. lia.
Qed.

Lemma pretty_N_nonempty (x : N) : pretty x <> "".
Proof.
  unfold pretty, pretty_N. destruct (decide (x = 0%N)) as [->|Hx]; [discriminate|].
  rewrite pretty_N_go_step by lia.
  intros H. pose proof (pretty_N_go_length (x `div` 10)%N
                          (String (pretty_N_char (x `mod` 10)%N) "")) as Hlen.
  rewrite H in Hlen. simpl in Hlen. lia.
Qed.

Lemma pretty_Z_truthy (n : Z) : truthy (pretty n) = true.
Proof.
  unfold truthy. apply negb_true_iff, String.eqb_neq.
  unfold pretty, pretty_Z. destruct n as [|p|p].
  - discriminate.
  - apply (pretty_N_nonempty (Npos p)).
  - discriminate.
Qed.

Lemma truthy_false s : truthy s = false -> s = "".
Proof. unfold truthy. intros H. apply negb_false_iff, String.eqb_eq in H. exact H. Qed.

(** *** The loop *)

Lemma employees_key_inj y1 y2 : employees_key y1 = employees_key y2 -> y1 = y2.
Proof. intros H. cbv in H. congruence. Qed.

Lemma filing_year_guard filing :
  filing_year filing =
  let made_up := default "" (made_up_date filing) in
  if negb (truthy made_up) || (String.length made_up <? 4)%nat then None
  else if bool_decide (take 4 made_up ∈ tracked_years) then Some (take 4 made_up)
  else None.
Proof.
  unfold filing_year. simpl.
  destruct (default "" (made_up_date filing)) as [|c s]; reflexivity.
Qed.

(** One iteration, seen from the slot of one tracked year. *)
Lemma process_filing_slot P client h filing year :
  process_filing P client h filing !! employees_key year =
  if bool_decide (filing_year filing = Some year) then
    if truthy_opt (h !! employees_key year) then h !! employees_key year
    else match filing_headcount P client filing with
         | Some n => Some (pretty n)
         | None => h !! employees_key year
         end
  else h !! employees_key year.
Proof.
  rewrite filing_year_guard. unfold process_filing, filing_headcount. cbv zeta.
  destruct (negb (truthy _) || _).
  { rewrite bool_decide_eq_false_2 by discriminate. reflexivity. }
  set (y := take 4 (default "" (made_up_date filing))).
  destruct (bool_decide (y ∈ tracked_years)); cbn [negb].
  2:{ rewrite bool_decide_eq_false_2 by discriminate. reflexivity. }
  destruct (decide (y = year)) as [->|Hne].
  - rewrite bool_decide_eq_true_2 by reflexivity.
    destruct (truthy_opt (h !! employees_key year)); [reflexivity|].
    destruct (filing_document client filing) as [content|]; cbn [mbind option_bind];
      [|reflexivity].
    destruct (extract_employee_count P content); [|reflexivity].
    apply lookup_insert_eq.
  - rewrite bool_decide_eq_false_2 by congruence.
    destruct (truthy_opt (h !! employees_key y)); [reflexivity|].
    destruct (filing_document client filing) as [content|]; [|reflexivity].
    destruct (extract_employee_count P content); [|reflexivity].
    apply lookup_insert_ne. intros H. apply employees_key_inj in H. congruence.
Qed.

Lemma first_seen_cons P client filing filings year :
  first_seen P client (filing :: filings) year =
  if bool_decide (filing_year filing = Some year) then
    match filing_headcount P client filing with
    | Some n => pretty n
    | None => first_seen P client filings year
    end
  else first_seen P client filings year.
Proof.
  unfold first_seen. rewrite filter_cons.
  destruct (decide (filing_year filing = Some year)) as [E|E].
  - rewrite bool_decide_eq_true_2 by exact E. simpl.
    destruct (filing_headcount P client filing); reflexivity.
  - rewrite bool_decide_eq_false_2 by exact E. reflexivity.
Qed.

(** The loop from any dictionary: a slot that is filled stays as it is, an
    empty slot receives the first headcount found for its year. *)
Lemma fold_process_slot P client year filings : forall h v,
  h !! employees_key year = Some v ->
  fold_left (process_filing P client) filings h !! employees_key year =
  Some (if truthy v then v else first_seen P client filings year).
Proof.
  induction filings as [|filing filings IH]; intros h v Hv.
  - simpl. rewrite Hv. destruct (truthy v) eqn:E; [reflexivity|].
    apply truthy_false in E. subst v. reflexivity.
  - simpl fold_left. rewrite first_seen_cons.
    pose proof (process_filing_slot P client h filing year) as Hstep.
    rewrite Hv in Hstep. simpl in Hstep.
    destruct (bool_decide (filing_year filing = Some year)).
    + destruct (truthy v) eqn:Ev.
      * rewrite (IH _ v Hstep), Ev. reflexivity.
      * destruct (filing_headcount P client filing) as [n|].
        -- rewrite (IH _ (pretty n) Hstep), pretty_Z_truthy. reflexivity.
        -- rewrite (IH _ v Hstep), Ev. reflexivity.
    + rewrite (IH _ v Hstep). reflexivity.
Qed.

Lemma empty_headcounts_slot year :
  year ∈ tracked_years -> empty_headcounts !! employees_key year = Some "".
Proof.
  unfold tracked_years. rewrite !elem_of_cons, elem_of_nil.
  intros [->|[->|[->|[]]]]; vm_compute; reflexivity.
Qed.

Lemma process_filing_dom P client h filing :
  (forall year, year ∈ tracked_years -> is_Some (h !! employees_key year)) ->
  dom (process_filing P client h filing) = dom h.
Proof.
  intros Hkeys. unfold process_filing. cbv zeta.
  destruct (negb (truthy _) || _); [reflexivity|].
  set (y := take 4 (default "" (made_up_date filing))).
  destruct (bool_decide (y ∈ tracked_years)) eqn:Ey; cbn [negb]; [|reflexivity].
  apply bool_decide_eq_true in Ey.
  destruct (truthy_opt _); [reflexivity|].
  destruct (filing_document client filing) as [content|]; [|reflexivity].
  destruct (extract_employee_count P content); [|reflexivity].
  rewrite dom_insert_L. apply Hkeys in Ey. apply elem_of_dom in Ey.
  apply subseteq_union_1_L, singleton_subseteq_l, Ey.
Qed.

Lemma fold_process_dom P client filings : forall h,
  (forall year, year ∈ tracked_years -> is_Some (h !! employees_key year)) ->
  dom (fold_left (process_filing P client) filings h) = dom h.
Proof.
  induction filings as [|filing filings IH]; intros h Hkeys; [reflexivity|].
  simpl. rewrite IH.
  - apply process_filing_dom, Hkeys.
  - intros year Hy. apply elem_of_dom.
    rewrite process_filing_dom by exact Hkeys. apply elem_of_dom, Hkeys, Hy.
Qed.

Lemma extract_headcount_dom P filings client :
  dom (extract_headcount_from_filings P filings client) = dom empty_headcounts.
Proof.
  unfold extract_headcount_from_filings.
  destruct filings as [|f fs]; [reflexivity|].
  destruct client as [c|]; [|reflexivity].
  apply fold_process_dom. intros year Hy.
  rewrite (empty_headcounts_slot year Hy). eexists. reflexivity.
Qed.

Lemma extract_headcount_slot P client filings year :
  year ∈ tracked_years ->
  extract_headcount_from_filings P filings (Some client) !! employees_key year
  = Some (first_seen P client filings year).
Proof.
  intros Hy. unfold extract_headcount_from_filings.
  destruct filings as [|f fs].
  - rewrite (empty_headcounts_slot year Hy). reflexivity.
  - rewrite (fold_process_slot P client year (f :: fs) _ ""
               (empty_headcounts_slot year Hy)).
    reflexivity.
Qed.



End CompaniesHouseFacts.

(** ** One record *)

Module EnricherFacts.

Import Text CompaniesHouse Enricher.

Lemma format_address_empty : _format_address ∅ = "".
Proof. reflexivity. Qed.

Lemma dom_empty_result : dom empty_result = list_to_set result_fields.
Proof.
  unfold empty_result. rewrite !dom_insert_L, dom_empty_L. simpl. set_solver.
Qed.

Lemma assign_dom key v r :
  key ∈ dom r -> dom (snd (assign key v r)) = dom r.
Proof.
  intros H. simpl. rewrite dom_insert_L.
  apply subseteq_union_1_L, singleton_subseteq_l, H.
Qed.

Lemma keeps_ret {A} (a : A) : keeps_fields (ret a).
Proof. intros r H. exact H. Qed.

Lemma keeps_await {A} (o : Outcome A) : keeps_fields (await o).
Proof. intros r H. exact H. Qed.

Lemma keeps_assign key v : key ∈ result_fields -> keeps_fields (assign key v).
Proof.
  intros Hk r H. rewrite assign_dom; [exact H|].
  rewrite H. apply elem_of_list_to_set, Hk.
Qed.

Lemma keeps_bind {A B} (m : Step A) (k : A -> Step B) :
  keeps_fields m -> (forall a, keeps_fields (k a)) -> keeps_fields (bind m k).
Proof.
  intros Hm Hk r H. unfold bind. specialize (Hm r H).
  destruct (m r) as [[a|] r']; simpl in *; [apply Hk, Hm | exact Hm].
Qed.

Lemma keeps_update d :
  dom d ⊆ list_to_set result_fields -> keeps_fields (update d).
Proof.
  intros Hd r H. simpl. rewrite dom_union_L, H.
  apply subseteq_union_1_L, Hd.
Qed.

Lemma headcount_keys_are_fields :
  dom empty_headcounts ⊆@{gset string} list_to_set result_fields.
Proof.
  unfold empty_headcounts. rewrite !dom_insert_L, dom_empty_L. simpl.
  intros k. rewrite !elem_of_union, !elem_of_singleton, !elem_of_empty. tauto.
Qed.

Lemma keeps_locate S profile : keeps_fields (locate S profile).
Proof.
  unfold locate. destruct profile as [p|]; [|apply keeps_ret].
  destruct (bool_decide _); [apply keeps_ret|].
  apply keeps_bind; [apply keeps_await|].
  intros geocoded. apply keeps_assign. set_solver.
Qed.

Lemma keeps_find_website S name : keeps_fields (find_website S name).
Proof.
  unfold find_website. apply keeps_bind; [apply keeps_await|].
  intros website. destruct (truthy_opt website); [|apply keeps_ret].
  apply keeps_bind; [apply keeps_assign; set_solver|]. intros _.
  apply keeps_bind; [apply keeps_await|]. intros d.
  apply keeps_assign. set_solver.
Qed.

Lemma keeps_count_employees S filings : keeps_fields (count_employees S filings).
Proof.
  unfold count_employees. destruct filings as [[|f fs]|]; try apply keeps_ret.
  apply keeps_update. rewrite CompaniesHouseFacts.extract_headcount_dom.
  apply headcount_keys_are_fields.
Qed.

Lemma keeps_try_block S number name : keeps_fields (try_block S number name).
Proof.
  unfold try_block.
  apply keeps_bind; [apply keeps_locate|]. intros _.
  apply keeps_bind; [apply keeps_find_website|]. intros _.
  apply keeps_count_employees.
Qed.

(** *** Where a step raises and what it leaves untouched *)

Lemma locate_raises S number r :
  geocoding_raises S number = true ->
  locate S (fetch_profile S number) r = (Raised, r).
Proof.
  unfold geocoding_raises, locate.
  destruct (fetch_profile S number) as [p|]; [|discriminate]. cbv zeta.
  destruct (bool_decide _); [discriminate|].
  unfold bind, await. destruct (to_latlon S _); [discriminate|reflexivity].
Qed.

Lemma locate_returns S number r :
  geocoding_raises S number = false ->
  fst (locate S (fetch_profile S number) r) = Returned tt.
Proof.
  unfold geocoding_raises, locate.
  destruct (fetch_profile S number) as [p|]; [|reflexivity]. cbv zeta.
  destruct (bool_decide _); [reflexivity|].
  unfold bind, await. destruct (to_latlon S _); [reflexivity|discriminate].
Qed.

Lemma locate_frame S profile r k :
  k <> "manufacturing_location" ->
  snd (locate S profile r) !! k = r !! k.
Proof.
  intros Hk. unfold locate. destruct profile as [p|]; [|reflexivity]. cbv zeta.
  destruct (bool_decide _); [reflexivity|].
  unfold bind, await. destruct (to_latlon S _); [|reflexivity].
  simpl. apply lookup_insert_ne. congruence.
Qed.

Lemma find_website_search_raises S name r :
  search_raises S name = true -> find_website S name r = (Raised, r).
Proof.
  unfold search_raises, find_website, bind, await.
  destruct (find_official_site S name); [discriminate|reflexivity].
Qed.

Lemma find_website_scrape_raises S name r :
  scrape_raises S name = true ->
  exists website,
    find_official_site S name = Returned (Some website) /\
    find_website S name r = (Raised, <["company_url" := website]> r).
Proof.
  unfold scrape_raises, find_website, bind, await, assign.
  destruct (find_official_site S name) as [[website|]|]; try discriminate.
  destruct (truthy_opt (Some website)); [|discriminate]. simpl.
  destruct (grab_description S website); [discriminate|].
  intros _. exists website. split; reflexivity.
Qed.

Lemma find_website_returns S name r :
  search_raises S name = false -> scrape_raises S name = false ->
  fst (find_website S name r) = Returned tt.
Proof.
  unfold search_raises, scrape_raises, find_website, bind, await, assign.
  destruct (find_official_site S name) as [website|]; [|discriminate].
  intros _. destruct (truthy_opt website); [|reflexivity]. simpl.
  destruct (grab_description S _); [reflexivity|discriminate].
Qed.

Lemma find_website_frame S name r k :
  k <> "company_url" -> k <> "description" ->
  snd (find_website S name r) !! k = r !! k.
Proof.
  intros Hu Hd. unfold find_website, bind, await, assign.
  destruct (find_official_site S name) as [website|]; [|reflexivity].
  destruct (truthy_opt website); [|reflexivity].
  destruct (grab_description S _); simpl.
  - rewrite !lookup_insert_ne by congruence. reflexivity.
  - rewrite lookup_insert_ne by congruence. reflexivity.
Qed.

Lemma count_employees_returns S filings r :
  fst (count_employees S filings r) = Returned tt.
Proof. unfold count_employees. destruct filings as [[|f fs]|]; reflexivity. Qed.

Lemma count_employees_frame S filings r k :
  k ∉ dom empty_headcounts ->
  snd (count_employees S filings r) !! k = r !! k.
Proof.
  intros Hk. unfold count_employees.
  destruct filings as [[|f fs]|]; try reflexivity.
  unfold update. cbn [snd]. apply lookup_union_r, not_elem_of_dom.
  rewrite CompaniesHouseFacts.extract_headcount_dom. exact Hk.
Qed.

Lemma location_is_no_headcount : "manufacturing_location" ∉ dom empty_headcounts.
Proof.
  unfold empty_headcounts. rewrite !dom_insert_L, dom_empty_L.
  rewrite !elem_of_union, !elem_of_singleton, elem_of_empty.
  intros [H|[H|[H|[]]]]; discriminate.
Qed.

Lemma isolated_location S number name :
  isolated_result S number name !! "manufacturing_location"
  = snd (locate S (fetch_profile S number) empty_result) !! "manufacturing_location".
Proof.
  unfold isolated_result, isolated_block, bind, contain. simpl.
  rewrite count_employees_frame by apply location_is_no_headcount.
  rewrite find_website_frame by discriminate. reflexivity.
Qed.

Lemma empty_result_field k : k ∈ result_fields -> empty_result !! k = Some "".
Proof.
  unfold result_fields. rewrite !elem_of_cons, elem_of_nil.
  intros [->|[->|[->|[->|[->|[->|[]]]]]]]; vm_compute; reflexivity.
Qed.

Lemma try_block_unfold S number name r :
  try_block S number name r =
  match locate S (fetch_profile S number) r with
  | (Returned _, r1) =>
      match find_website S name r1 with
      | (Returned _, r2) => count_employees S (fetch_latest_filings S number) r2
      | (Raised, r2) => (Raised, r2)
      end
  | (Raised, r1) => (Raised, r1)
  end.
Proof. reflexivity. Qed.

Lemma isolated_result_unfold S number name :
  isolated_result S number name =
  snd (count_employees S (fetch_latest_filings S number)
         (snd (find_website S name
                 (snd (locate S (fetch_profile S number) empty_result))))).
Proof. reflexivity. Qed.

(** Whatever the enrichment of a record returns has the six fields. *)
Lemma perform_enrichment_fields S company r :
  _perform_enrichment S company = Returned r ->
  dom r = list_to_set result_fields.
Proof.
  unfold _perform_enrichment.
  destruct (company !! "CompanyNumber") as [number|]; [|discriminate].
  destruct (company !! "CompanyName") as [name|]; [|discriminate].
  intros [= <-]. apply keeps_try_block, dom_empty_result.
Qed.


(** The two dictionaries at that input. *)
Lemma search_failure_fields :
  _perform_enrichment search_fails acme
  = Returned (<["manufacturing_location" := "1 Main St, London, EC1 1AA"]> empty_result) /\
  perform_enrichment_isolated search_fails acme
  = Returned (<["employees_2023" := "42"]>
               (<["manufacturing_location" := "1 Main St, London, EC1 1AA"]> empty_result)).
Proof. split; vm_compute; reflexivity. Qed.



(** C6.  For the record of Acme Ltd, when the profile carries a registered
    office address that formats to "1 Main St, London, EC1 1AA", the geocoder
    answers [None], the website search answers [None] and the filing history
    is empty, every field of the result is empty except the location, which
    is the formatted address. *)
Theorem geocode_fallback S profile address :
  fetch_profile S "00041424" = Returned profile ->
  registered_office_address profile = Some address ->
  _format_address address = "1 Main St, London, EC1 1AA" ->
  to_latlon S "1 Main St, London, EC1 1AA" = Returned None ->
  find_official_site S "Acme Ltd" = Returned None ->
  fetch_latest_filings S "00041424" = Returned [] ->
  _perform_enrichment S acme
  = Returned (<["manufacturing_location" := "1 Main St, London, EC1 1AA"]> empty_result).
Proof.
  intros Hprofile Haddress Hformat Hgeo Hsite Hfilings.
  assert (Hne : address <> ∅).
  { intros ->. rewrite format_address_empty in Hformat. discriminate. }
  unfold _perform_enrichment.
  change (acme !! "CompanyNumber") with (Some "00041424").
  change (acme !! "CompanyName") with (Some "Acme Ltd").
  f_equal. rewrite try_block_unfold, Hprofile, Hfilings.
  unfold locate. rewrite Haddress.
  change (default ∅ (Some address)) with address. cbv zeta.
  rewrite bool_decide_eq_false_2 by exact Hne.
  rewrite Hformat. unfold bind, await at 1. rewrite Hgeo. cbn [truthy_opt].
  unfold find_website, bind, await. rewrite Hsite. reflexivity.
Qed.

Lemma geocode_fallback_witness :
  _perform_enrichment address_only acme
  = Returned (<["manufacturing_location" := "1 Main St, London, EC1 1AA"]> empty_result).
Proof.
  apply (geocode_fallback address_only
           {| registered_office_address := Some acme_address |} acme_address);
    reflexivity.
Defined.

End EnricherFacts.

(** ** The concurrency bound *)

Module SemaphoreFacts.

Import Semaphore.

Local Open Scope nat_scope.

Lemma count_cons p (w : list Phase) :
  length (filter (fun p => p = Enriching) (p :: w))
  = weight p + length (filter (fun p => p = Enriching) w).
Proof.
  rewrite filter_cons. destruct (decide (p = Enriching)) as [->|E].
  - reflexivity.
  - destruct p; [reflexivity | contradiction | reflexivity].
Qed.

(** Replacing one task of the window moves the count by the difference of
    the two weights. *)
Lemma count_insert (w : list Phase) : forall i p q,
  w !! i = Some p ->
  length (filter (fun p => p = Enriching) (<[i := q]> w)) + weight p
  = length (filter (fun p => p = Enriching) w) + weight q.
Proof.
  induction w as [|x w IH]; intros i p q Hi; [discriminate|].
  destruct i as [|i]; simpl in Hi.
  - injection Hi as ->. simpl insert. rewrite !count_cons. lia.
  - simpl insert. rewrite !count_cons. specialize (IH i p q Hi). lia.
Qed.

Lemma count_all_ended (w : list Phase) :
  Forall (fun p => p = Ended) w ->
  length (filter (fun p => p = Enriching) w) = 0.
Proof.
  induction 1 as [|p w Hp _ IH]; [reflexivity|].
  rewrite count_cons, IH, Hp. reflexivity.
Qed.

Lemma count_all_waiting n :
  length (filter (fun p => p = Enriching) (replicate n Waiting)) = 0.
Proof.
  induction n as [|n IH]; [reflexivity|].
  simpl replicate. rewrite count_cons, IH. reflexivity.
Qed.

(** Every step keeps the slots in balance: free slots plus records being
    enriched. *)
Lemma step_balance s s' :
  step s s' -> value s' + enriching s' = value s + enriching s.
Proof.
  intros H. destruct H as [v w l i Hi | v w l i Hi | v w n l Hw];
    unfold enriching; simpl.
  - pose proof (count_insert w i Waiting Enriching Hi) as H. simpl in H. lia.
  - pose proof (count_insert w i Enriching Ended Hi) as H. simpl in H. lia.
  - rewrite count_all_waiting, (count_all_ended w Hw). reflexivity.
Qed.

(** C9.  In every state the run can reach, whatever the order in which the
    event loop resumes the tasks and however many windows have been launched,
    the records being enriched and the free slots of the one semaphore add up
    to [concurrency]; so never more than [concurrency] records are being
    enriched at once. *)
Theorem concurrency_bound (concurrency : nat) (windows : list nat) (s : State) :
  rtc step (start concurrency windows) s ->
  value s + enriching s = concurrency /\ enriching s <= concurrency.
Proof.
  intros H.
  assert (Hbal : value s + enriching s = concurrency).
  { revert s H. apply (rtc_ind_r (fun s => value s + enriching s = concurrency)).
    - unfold start, enriching. simpl. lia.
    - intros y z _ Hstep IH. rewrite (step_balance _ _ Hstep). exact IH. }
  split; [exact Hbal | lia].
Qed.

Lemma concurrency_bound_witness :
  let s := mkState 0 [Enriching; Waiting; Ended] [4] in
  value s + enriching s = 1 /\ enriching s <= 1.
Proof.
  apply (concurrency_bound 1 [3; 4]).
  eapply rtc_l; [apply step_next_window; constructor|].
  eapply rtc_l; [apply (step_acquire 0 _ _ 2); reflexivity|].
  eapply rtc_l; [apply (step_release 0 _ _ 2); reflexivity|].
  eapply rtc_l; [apply (step_acquire 0 _ _ 0); reflexivity|].
  apply rtc_refl.
Defined.

End SemaphoreFacts.


(** ** The batch *)

Module PipelineFacts.

Import Pipeline.

Local Open Scope nat_scope.

Section Batch.

Context {Row : Type}.
Variable task : nat -> Row -> Outcome (gmap string string).
Variables (df : list Row) (output_path : string).
Variables (concurrency : Z) (k : nat).

Hypothesis concurrency_pos : (1 <= concurrency)%Z.
Hypothesis k_pos : 1 <= k.
Hypothesis path_ok :
  Text.endswith output_path ".csv" = true \/
  Text.endswith output_path ".parquet" = true.

Local Abbreviation R := (expected_results task df).

Lemma length_expected : length R = length df.
Proof. apply length_imap. Qed.

Lemma window_results i b :
  result_of <$> imap (fun j company => task (i + j) company) (take b (drop i df))
  = take b (drop i R).
Proof.
  apply list_eq. intros j.
  rewrite list_lookup_fmap, list_lookup_imap, !lookup_take.
  destruct (decide (j < b)); [|reflexivity].
  rewrite !lookup_drop. unfold expected_results. rewrite list_lookup_imap.
  destruct (df !! (i + j)); reflexivity.
Qed.

Lemma take_min_length {A} (l : list A) x :
  take (x `min` length l) l = take x l.
Proof.
  destruct (Nat.le_ge_cases x (length l)) as [H|H].
  - rewrite Nat.min_l by exact H. reflexivity.
  - rewrite Nat.min_r by exact H. rewrite !take_ge by lia. reflexivity.
Qed.

Lemma save_overwrite (rows : list (Row * gmap string string)) fs :
  save_checkpoint rows output_path "overwrite" fs
  = (Returned tt, <[output_path := mkFile (format_of output_path) rows]> fs).
Proof.
  unfold save_checkpoint, format_of. simpl.
  destruct (Text.endswith output_path ".csv") eqn:E; [reflexivity|].
  destruct path_ok as [H|H]; [congruence|]. rewrite H. reflexivity.
Qed.

Lemma write_checkpoint_take x fs :
  write_checkpoint df output_path (take x R) fs
  = (Returned tt,
     <[output_path := mkFile (format_of output_path) (zip (take x df) (take x R))]> fs).
Proof.
  unfold write_checkpoint, _merge_results.
  assert (Hx : take (length (take x R)) df = take x df).
  { rewrite length_take, length_expected. apply take_min_length. }
  rewrite Hx, !length_take, length_expected, Nat.eqb_refl.
  apply save_overwrite.
Qed.

Lemma window_step a rest fs :
  a * k < length df ->
  run_windows task df output_path concurrency k (a * k :: rest) (take (a * k) R) fs
  = run_windows task df output_path concurrency k rest (take ((a + 1) * k) R)
      (<[output_path := mkFile (format_of output_path)
                               (zip (take ((a + 1) * k) df) (take ((a + 1) * k) R))]> fs).
Proof.
  intros Ha. cbn [run_windows].
  set (i := a * k) in *.
  set (b := (i + k) `min` length df - i).
  assert (Hb : length (take b (drop i df)) = b).
  { rewrite length_take, length_drop. subst b. lia. }
  assert (Hb0 : b <> 0) by (subst b; lia).
  rewrite Hb.
  replace (concurrency =? 0)%Z with false by (symmetry; apply Z.eqb_neq; lia).
  cbn [andb].
  rewrite window_results, take_take_drop.
  replace (i + b) with ((i + k) `min` length df) by (subst b; lia).
  assert (Htake : take ((i + k) `min` length df) R = take (i + k) R).
  { rewrite <- length_expected. apply take_min_length. }
  rewrite Htake.
  replace ((a + 1) * k) with (i + k) by (subst i; lia).
  assert (Hcond : (((i + k) `min` length df <? length df)
                   || ((i + k) `min` length df =? length df)) = true).
  { apply orb_true_iff.
    destruct (Nat.le_gt_cases (length df) (i + k)).
    - right. apply Nat.eqb_eq. lia.
    - left. apply Nat.ltb_lt. lia. }
  rewrite Hcond, write_checkpoint_take. reflexivity.
Qed.

(** The loop over the windows [a, a + m): it completes with the results of
    the first [(a + m) * k] records, and the output file holds exactly these
    rows after its last checkpoint. *)
Lemma run_windows_spec m : forall a fs,
  (m = 0 \/ (a + m - 1) * k < length df) ->
  exists fs',
    run_windows task df output_path concurrency k
                ((fun j => j * k) <$> seq a m) (take (a * k) R) fs
    = (Completed (take ((a + m) * k) R), fs') /\
    (m = 0 -> fs' = fs) /\
    (0 < m ->
     fs' = <[output_path := mkFile (format_of output_path)
                                   (zip (take ((a + m) * k) df)
                                        (take ((a + m) * k) R))]> fs).
Proof.
  induction m as [|m IH]; intros a fs Hm.
  - exists fs. rewrite Nat.add_0_r. split; [reflexivity|]. split; [reflexivity | lia].
  - destruct Hm as [Hm|Hm]; [discriminate|].
    cbn [seq fmap list_fmap]. rewrite window_step by nia.
    replace (a + 1) with (S a) by lia.
    destruct (IH (S a) (<[output_path := mkFile (format_of output_path)
                            (zip (take (S a * k) df) (take (S a * k) R))]> fs))
      as (fs' & Hrun & H0 & Hpos).
    { destruct m; [left; reflexivity | right].
      replace (S a + S m - 1) with (a + S (S m) - 1) by lia. exact Hm. }
    exists fs'. split; [|split; [lia|]].
    + rewrite Hrun. replace (S a + m) with (a + S m) by lia. reflexivity.
    + intros _. destruct m as [|m].
      * rewrite (H0 eq_refl). replace (a + 1) with (S a) by lia. reflexivity.
      * rewrite Hpos by lia. rewrite insert_insert_eq.
        replace (S a + S m) with (a + S (S m)) by lia. reflexivity.
Qed.

End Batch.

Lemma ceil_windows n k :
  1 <= k ->
  let m := (n + k - 1) / k in
  (m = 0 \/ (0 + m - 1) * k < n) /\ n <= (0 + m) * k /\ (0 < n -> 0 < m).
Proof.
  intros Hk m.
  pose proof (Nat.Div0.mul_div_le (n + k - 1) k) as Hle.
  pose proof (Nat.mul_succ_div_gt (n + k - 1) k ltac:(lia)) as Hgt.
  fold m in Hle, Hgt.
  assert (Hn : n <= m * k) by nia.
  split; [|split].
  - destruct m as [|m']; [left; reflexivity | right]. nia.
  - simpl. exact Hn.
  - intros Hpos. destruct m; [simpl in Hn; lia | lia].
Qed.

(** What a run returns and leaves on disk. *)
Lemma enrich_dataframe_completes {Row}
      (task : nat -> Row -> Outcome (gmap string string))
      (df : list Row) (output_path : string)
      (concurrency checkpoint_every : Z) (fs : gmap string File) :
  (1 <= concurrency)%Z ->
  (1 <= checkpoint_every)%Z ->
  Text.endswith output_path ".csv" = true \/
  Text.endswith output_path ".parquet" = true ->
  enrich_dataframe task df output_path concurrency checkpoint_every fs
  = (Completed (zip df (expected_results task df)),
     match df with
     | [] => fs
     | _ => <[output_path := mkFile (format_of output_path)
                                    (zip df (expected_results task df))]> fs
     end).
Proof.
  intros Hc Hk Hpath.
  set (k := Z.to_nat checkpoint_every).
  assert (Hk' : 1 <= k) by (subst k; lia).
  destruct (ceil_windows (length df) k Hk') as (Hstarts & Hcover & Hsome).
  destruct (run_windows_spec task df output_path concurrency k Hc Hk' Hpath
              ((length df + k - 1) / k) 0 fs Hstarts)
    as (fs' & Hrun & Hfs0 & Hfs).
  assert (Hall : take ((0 + (length df + k - 1) / k) * k) (expected_results task df)
                 = expected_results task df).
  { apply take_ge. rewrite length_expected. exact Hcover. }
  rewrite Hall in Hrun, Hfs.
  rewrite (take_ge df) in Hfs by exact Hcover.
  unfold enrich_dataframe, py_range.
  replace (concurrency <? 0)%Z with false by (symmetry; apply Z.ltb_ge; lia).
  replace (checkpoint_every =? 0)%Z with false by (symmetry; apply Z.eqb_neq; lia).
  replace (checkpoint_every <? 0)%Z with false by (symmetry; apply Z.ltb_ge; lia).
  fold k.
  change (take (0 * k) (expected_results task df)) with (@nil (gmap string string)) in Hrun.
  rewrite Hrun. unfold _merge_results.
  rewrite length_expected, Nat.eqb_refl. f_equal.
  destruct df as [|row df'].
  - apply Hfs0. simpl. apply Nat.div_small. lia.
  - apply Hfs, Hsome. simpl. lia.
Qed.



(** The file system when the process is killed after the second
    checkpoint of a run that has more than two windows. *)
Lemma killed_after_two {Row} (task : nat -> Row -> Outcome (gmap string string))
      (df : list Row) (output_path : string)
      (concurrency checkpoint_every : Z) (fs : gmap string File) :
  (1 <= concurrency)%Z ->
  (1 <= checkpoint_every)%Z ->
  Text.endswith output_path ".csv" = true ->
  2 * Z.to_nat checkpoint_every < length df ->
  killed_after task 2 df output_path concurrency checkpoint_every fs
  = <[output_path :=
        mkFile Csv (zip (take (2 * Z.to_nat checkpoint_every) df)
                        (take (2 * Z.to_nat checkpoint_every)
                              (expected_results task df)))]> fs.
Proof.
  intros Hc Hk Hpath Hlong.
  set (k := Z.to_nat checkpoint_every) in *.
  assert (Hk' : 1 <= k) by (subst k; lia).
  unfold killed_after, py_range.
  replace (concurrency <? 0)%Z with false by (symmetry; apply Z.ltb_ge; lia).
  replace (checkpoint_every =? 0)%Z with false by (symmetry; apply Z.eqb_neq; lia).
  replace (checkpoint_every <? 0)%Z with false by (symmetry; apply Z.ltb_ge; lia).
  fold k.
  assert (Hm : 2 <= (length df + k - 1) / k).
  { apply Nat.div_le_lower_bound; lia. }
  rewrite <- fmap_take, take_seq, Nat.min_l by exact Hm.
  destruct (run_windows_spec task df output_path concurrency k Hc Hk'
              (or_introl Hpath) 2 0 fs)
    as (fs' & Hrun & _ & Hfs); [right; lia|].
  change (take (0 * k) (expected_results task df)) with (@nil (gmap string string)) in Hrun.
  rewrite Hrun. cbn [snd]. rewrite Hfs by lia.
  unfold format_of. rewrite Hpath.
  replace ((0 + 2) * k) with (2 * k) by lia. reflexivity.
Qed.

Lemma output_records_insert {Row} (fs : gmap string (@File Row)) path fmt
      (records : list Row) (results : list (gmap string string)) :
  length records <= length results ->
  output_records (<[path := mkFile fmt (zip records results)]> fs) path
  = Some records.
Proof.
  intros Hlen. unfold output_records, output_rows.
  rewrite lookup_insert_eq. simpl. rewrite fst_zip by exact Hlen. reflexivity.
Qed.

(** C1, what the code does.  Take an input of more than two windows, an
    output in CSV and options the command line accepts.  When the process is
    killed after the second checkpoint the file holds the first [2 K] rows;
    the run with the resume flag enriches the remaining rows and overwrites
    the file with them alone, while an uninterrupted run leaves all [N] rows:
    the two final files differ. *)
Theorem resume_overwrites_checkpointed_rows {Row}
        (task : nat -> Row -> Outcome (gmap string string))
        (df : list Row) (output : string)
        (concurrency checkpoint : Z) (fs : gmap string File) :
  (1 <= concurrency <= 50)%Z ->
  (10 <= checkpoint)%Z ->
  Text.endswith output ".csv" = true ->
  2 * Z.to_nat checkpoint < length df ->
  let interrupted := killed_after task 2 df output concurrency checkpoint fs in
  let resumed := snd (enrich task df output concurrency checkpoint true interrupted) in
  let uninterrupted := snd (enrich task df output concurrency checkpoint false fs) in
  output_records interrupted output = Some (take (2 * Z.to_nat checkpoint) df) /\
  output_records resumed output = Some (drop (2 * Z.to_nat checkpoint) df) /\
  output_records uninterrupted output = Some df /\
  output_rows resumed output <> output_rows uninterrupted output.
Proof.
  intros Hc Hk Hpath Hlong interrupted resumed uninterrupted.
  set (k := Z.to_nat checkpoint) in *.
  assert (Hinterrupted : interrupted
            = <[output := mkFile Csv (zip (take (2 * k) df)
                                          (take (2 * k) (expected_results task df)))]> fs).
  { apply killed_after_two; [lia | lia | exact Hpath | exact Hlong]. }
  assert (Hbounds : ((concurrency <? 1) || (50 <? concurrency) || (checkpoint <? 10))%Z
                    = false).
  { rewrite !orb_false_iff. repeat split; apply Z.ltb_ge; lia. }
  assert (Hrest : exists row rest, drop (2 * k) df = row :: rest).
  { destruct (drop (2 * k) df) as [|row rest] eqn:E; [|eauto].
    apply (f_equal length) in E. rewrite length_drop in E. simpl in E. lia. }
  assert (Hresumed : output_records resumed output = Some (drop (2 * k) df)).
  { subst resumed. unfold enrich. rewrite Hbounds, Hinterrupted.
    unfold read_csv. rewrite lookup_insert_eq.
    rewrite bool_decide_eq_true_2 by (eexists; reflexivity).
    cbn [andb file_format file_rows].
    rewrite length_zip, !length_take, length_expected.
    replace (((2 * k) `min` length df) `min` ((2 * k) `min` length df)) with (2 * k) by lia.
    rewrite enrich_dataframe_completes by (lia || (left; exact Hpath)).
    cbn [snd]. destruct Hrest as (row & rest & ->).
    apply output_records_insert. rewrite length_expected. lia. }
  assert (Huninterrupted : output_records uninterrupted output = Some df).
  { subst uninterrupted. unfold enrich. rewrite Hbounds. cbn [andb].
    rewrite enrich_dataframe_completes by (lia || (left; exact Hpath)).
    cbn [snd]. destruct df as [|row rest]; [simpl in Hlong; lia|].
    apply output_records_insert. rewrite length_expected. lia. }
  split; [|split; [|split]].
  - rewrite Hinterrupted. apply output_records_insert.
    rewrite !length_take, length_expected. lia.
  - exact Hresumed.
  - exact Huninterrupted.
  - intros Heq. unfold output_records in Hresumed, Huninterrupted.
    rewrite Heq, Huninterrupted in Hresumed.
    injection Hresumed as Hdf. apply (f_equal length) in Hdf.
    rewrite length_drop in Hdf. lia.
Qed.

Lemma resume_overwrites_checkpointed_rows_witness :
  let interrupted := killed_after numbered_task 2 numbered_rows "out.csv" 5 10 ∅ in
  let resumed := snd (enrich numbered_task numbered_rows "out.csv" 5 10 true interrupted) in
  let uninterrupted := snd (enrich numbered_task numbered_rows "out.csv" 5 10 false ∅) in
  output_records interrupted "out.csv" = Some (take 20 numbered_rows) /\
  output_records resumed "out.csv" = Some (drop 20 numbered_rows) /\
  output_records uninterrupted "out.csv" = Some numbered_rows /\
  output_rows resumed "out.csv" <> output_rows uninterrupted "out.csv".
Proof.
  apply (resume_overwrites_checkpointed_rows numbered_task numbered_rows
           "out.csv" 5 10 ∅).
  - lia.
  - lia.
  - reflexivity.
  - simpl. lia.
Defined.

(** The three files at that input: 25 rows, a checkpoint every 10. *)
Lemma resume_at_25_rows :
  let interrupted := killed_after numbered_task 2 numbered_rows "out.csv" 5 10 ∅ in
  let resumed := snd (enrich numbered_task numbered_rows "out.csv" 5 10 true interrupted) in
  let uninterrupted := snd (enrich numbered_task numbered_rows "out.csv" 5 10 false ∅) in
  output_records interrupted "out.csv" = Some (seq 0 20) /\
  output_records resumed "out.csv" = Some [20; 21; 22; 23; 24] /\
  output_records uninterrupted "out.csv" = Some (seq 0 25).
Proof. cbv zeta. repeat split; vm_compute; reflexivity. Qed.

End PipelineFacts.

(** * Further facts *)

(** ** The rate limiter: bursts, waits and the adaptive rates *)

Module LimiterExtra.

Import Limiter LimiterFacts.

Lemma py_min_ge_r a b : (b <= a)%Q -> (py_min a b == b)%Q.
Proof.
  intros H. unfold py_min. destruct (Qlt_bool b a) eqn:E; [reflexivity|].
  apply Qlt_bool_false in E. lra.
Qed.

Lemma py_min_ge_l a b : (a <= b)%Q -> (py_min a b == a)%Q.
Proof.
  intros H. unfold py_min. destruct (Qlt_bool b a) eqn:E; [|reflexivity].
  apply Qlt_bool_iff in E. lra.
Qed.

Lemma inject_Z_succ (n : nat) :
  (inject_Z (Z.of_nat (S n)) == inject_Z (Z.of_nat n) + 1)%Q.
Proof. rewrite Nat2Z.inj_succ. unfold Z.succ. rewrite inject_Z_plus. reflexivity. Qed.

(** A refill never takes tokens away from a bucket that is within its
    capacity. *)
Lemma refill_keeps rl now :
  bucket_ok rl -> (tokens rl <= inject_Z (burst_size rl))%Q ->
  (last_update rl <= now)%Q ->
  (tokens rl <= tokens (refill rl now))%Q.
Proof.
  intros (Hrate & H0 & Hb) Hcap Hnow. simpl.
  apply py_min_glb; [exact Hcap | nra].
Qed.

Lemma acquire_unit_free rl now :
  bucket_ok rl -> (tokens rl <= inject_Z (burst_size rl))%Q ->
  (last_update rl <= now)%Q -> (1 <= tokens rl)%Q ->
  fst (acquire rl now 1) = 0%Q /\
  (tokens rl - 1 <= tokens (snd (acquire rl now 1)))%Q.
Proof.
  intros Hok Hcap Hnow H1.
  pose proof (refill_keeps rl now Hok Hcap Hnow) as Hkeep.
  unfold acquire. set (t := tokens (refill rl now)) in *.
  destruct (Qlt_bool t (inject_Z 1)) eqn:E.
  - apply Qlt_bool_iff in E. change (inject_Z 1) with 1%Q in E. lra.
  - split; [reflexivity|]. simpl. fold t. change (inject_Z 1) with 1%Q. lra.
Qed.

Lemma waits_free times : forall rl,
  bucket_ok rl -> (tokens rl <= inject_Z (burst_size rl))%Q ->
  clock_ok (last_update rl) (unit_calls times) ->
  (inject_Z (Z.of_nat (length times)) <= tokens rl)%Q ->
  Forall (fun w => w = 0%Q) (waits rl (unit_calls times)).
Proof.
  induction times as [|t times IH]; intros rl Hok Hcap Hclock Hlen.
  - constructor.
  - destruct Hclock as [Hnow Hrest].
    cbn [length] in Hlen. rewrite inject_Z_succ in Hlen.
    assert (Hpos : (0 <= inject_Z (Z.of_nat (length times)))%Q)
      by (apply inject_Z_nonneg; lia).
    destruct (acquire_unit_free rl t Hok Hcap Hnow) as [Hw Ht]; [lra|].
    destruct (acquire_ok rl t 1 Hok Hnow) as (Hok1 & Hb1 & Hl1 & Hc1).
    cbn [unit_calls fmap list_fmap waits]. constructor; [exact Hw|].
    apply IH.
    + exact Hok1.
    + rewrite Hb1. apply Hc1. lia.
    + rewrite Hl1. exact Hrest.
    + lra.
Qed.

(** X1.  Burst capacity: on a limiter fresh from its constructor, the first
    [burst_size] calls of [acquire()] return without sleeping, whenever they
    are made. *)
Theorem burst_is_free (rate : Q) (burst : option Z) (t0 : Q) (times : list Q) :
  (0 < rate)%Q ->
  (forall b, burst = Some b -> 0 <= b) ->
  clock_ok t0 (unit_calls times) ->
  Z.of_nat (length times) <= burst_size (init rate burst t0) ->
  Forall (fun w => w = 0%Q) (waits (init rate burst t0) (unit_calls times)).
Proof.
  intros Hrate Hburst Hclock Hlen.
  destruct (init_ok rate burst t0 Hrate Hburst) as [Hok Hfull].
  apply waits_free; [exact Hok | exact Hfull | exact Hclock |].
  change (tokens (init rate burst t0)) with (inject_Z (burst_size (init rate burst t0))).
  rewrite <- Zle_Qle. exact Hlen.
Qed.

Lemma burst_is_free_witness :
  Forall (fun w => w = 0%Q)
         (waits (init 1 (Some 3) 0) (unit_calls [0%Q; 0%Q; 1 # 10])).
Proof.
  apply (burst_is_free 1 (Some 3) 0 [0%Q; 0%Q; 1 # 10]).
  - reflexivity.
  - intros b [= <-]. lia.
  - simpl. repeat split; vm_compute; discriminate.
  - simpl. lia.
Defined.

Lemma acquire_unit_exact rl now :
  bucket_ok rl -> (last_update rl <= now)%Q ->
  (tokens (refill rl now) == tokens rl)%Q -> (1 <= tokens rl)%Q ->
  (tokens (snd (acquire rl now 1)) == tokens rl - 1)%Q /\
  last_update (snd (acquire rl now 1)) = now /\
  max_rate (snd (acquire rl now 1)) = max_rate rl /\
  burst_size (snd (acquire rl now 1)) = burst_size rl.
Proof.
  intros Hok Hnow Hsame H1. unfold acquire.
  set (t := tokens (refill rl now)) in *.
  destruct (Qlt_bool t (inject_Z 1)) eqn:E.
  - apply Qlt_bool_iff in E. change (inject_Z 1) with 1%Q in E. lra.
  - simpl. fold t. change (inject_Z 1) with 1%Q.
    split; [lra|]. repeat split.
Qed.

Lemma refill_same_instant rl :
  bucket_ok rl -> (tokens rl <= inject_Z (burst_size rl))%Q ->
  (tokens (refill rl (last_update rl)) == tokens rl)%Q.
Proof.
  intros Hok Hcap. simpl. rewrite py_min_ge_r; lra.
Qed.

Lemma run_same_instant t (j : nat) : forall rl,
  bucket_ok rl -> (last_update rl <= t)%Q ->
  (tokens rl <= inject_Z (burst_size rl))%Q ->
  (tokens (refill rl t) == tokens rl)%Q ->
  (inject_Z (Z.of_nat j) <= tokens rl)%Q ->
  let rl' := run rl (unit_calls (replicate j t)) in
  (tokens rl' == tokens rl - inject_Z (Z.of_nat j))%Q /\
  (last_update rl' <= t)%Q /\
  (tokens (refill rl' t) == tokens rl')%Q /\
  max_rate rl' = max_rate rl /\ burst_size rl' = burst_size rl /\ bucket_ok rl'.
Proof.
  induction j as [|j IH]; intros rl Hok Hnow Hcap Hsame Hlen.
  - cbn [replicate unit_calls fmap list_fmap run Z.of_nat]. cbv zeta.
    split; [change (inject_Z (Z.of_nat 0)) with 0%Q; lra|].
    split; [exact Hnow|]. split; [exact Hsame|].
    split; [reflexivity|]. split; [reflexivity | exact Hok].
  - rewrite inject_Z_succ in Hlen.
    assert (Hpos : (0 <= inject_Z (Z.of_nat j))%Q) by (apply inject_Z_nonneg; lia).
    destruct (acquire_unit_exact rl t Hok Hnow Hsame) as (Ht & Hl & Hr & Hb); [lra|].
    destruct (acquire_ok rl t 1 Hok Hnow) as (Hok1 & _ & _ & Hc1).
    specialize (Hc1 ltac:(lia)).
    cbn [replicate unit_calls fmap list_fmap run].
    set (rl1 := snd (acquire rl t 1)) in *.
    destruct (IH rl1) as (Ht' & Hl' & Hs' & Hr' & Hb' & Hok').
    + exact Hok1.
    + rewrite Hl. apply Qle_refl.
    + rewrite Hb. exact Hc1.
    + rewrite <- Hl at 1. apply refill_same_instant; [exact Hok1|].
      rewrite Hb. exact Hc1.
    + lra.
    + fold (unit_calls (replicate j t)).
      split; [rewrite Ht', Ht, inject_Z_succ; lra|].
      split; [exact Hl'|]. split; [exact Hs'|].
      split; [congruence|]. split; [congruence | exact Hok'].
Qed.

(** X2.  An exhausted bucket: once [burst_size] calls of [acquire()] have
    been made at one instant on a fresh limiter the bucket is empty, and a
    further call at that instant sleeps [1 / max_rate]. *)
Theorem exhausted_bucket_waits (rate : Q) (burst : option Z) (t0 t : Q) :
  (0 < rate)%Q ->
  (forall b, burst = Some b -> 0 <= b) ->
  (t0 <= t)%Q ->
  let rl0 := init rate burst t0 in
  let rl := run rl0 (unit_calls (replicate (Z.to_nat (burst_size rl0)) t)) in
  (tokens rl == 0)%Q /\ (fst (acquire rl t 1) == 1 / rate)%Q.
Proof.
  intros Hrate Hburst Ht rl0 rl.
  destruct (init_ok rate burst t0 Hrate Hburst) as [Hok Hfull]. fold rl0 in Hok, Hfull.
  assert (Hb0 : 0 <= burst_size rl0) by apply Hok.
  assert (Hfresh : (tokens rl0 == inject_Z (burst_size rl0))%Q) by reflexivity.
  destruct (run_same_instant t (Z.to_nat (burst_size rl0)) rl0)
    as (Htok & Hl & Hsame & Hr & Hb & Hok').
  - exact Hok.
  - exact Ht.
  - exact Hfull.
  - simpl. rewrite py_min_ge_l; [reflexivity|].
    assert ((0 <= (t - t0) * rate)%Q) by nra. simpl in *. lra.
  - rewrite Z2Nat.id by exact Hb0. rewrite Hfresh. apply Qle_refl.
  - fold rl in Htok, Hl, Hsame, Hr, Hb, Hok'.
    rewrite Z2Nat.id in Htok by exact Hb0.
    assert (Hzero : (tokens rl == 0)%Q) by (rewrite Htok, Hfresh; lra).
    split; [exact Hzero|].
    unfold acquire. set (t' := tokens (refill rl t)) in *.
    assert (Ht' : (t' == 0)%Q) by (rewrite Hsame; exact Hzero).
    destruct (Qlt_bool t' (inject_Z 1)) eqn:E.
    + cbn [fst]. change (max_rate (refill rl t)) with (max_rate rl).
      rewrite Hr. change (max_rate rl0) with rate.
      change (inject_Z 1) with 1%Q. rewrite Ht'.
      unfold Qminus. rewrite Qplus_0_r. reflexivity.
    + apply Qlt_bool_false in E. change (inject_Z 1) with 1%Q in E. lra.
Qed.

Lemma exhausted_bucket_waits_witness :
  let rl0 := init 1 (Some 3) 0 in
  let rl := run rl0 (unit_calls (replicate (Z.to_nat (burst_size rl0)) (1 # 2))) in
  (tokens rl == 0)%Q /\ (fst (acquire rl (1 # 2) 1) == 1 / 1)%Q.
Proof.
  apply (exhausted_bucket_waits 1 (Some 3) 0 (1 # 2)).
  - reflexivity.
  - intros b [= <-]. lia.
  - vm_compute. discriminate.
Defined.

(** X3.  The sleep is not charged to the bucket: [last_update] is taken
    before the sleep, so the time slept is credited again by the next
    refill.  A call of [acquire()] that found the bucket empty and slept
    [1 / max_rate] is followed by a call that does not sleep at all, as soon
    as the first has returned. *)
Theorem sleep_is_credited_again (rl : RateLimiter) (now later : Q) :
  bucket_ok rl ->
  1 <= burst_size rl ->
  (last_update rl <= now)%Q ->
  (tokens (refill rl now) == 0)%Q ->
  (now + 1 / max_rate rl <= later)%Q ->
  (fst (acquire rl now 1) == 1 / max_rate rl)%Q /\
  fst (acquire (snd (acquire rl now 1)) later 1) = 0%Q.
Proof.
  intros Hok Hburst Hnow Hempty Hlater.
  destruct Hok as (Hrate & H0 & Hb).
  assert (Hfirst : acquire rl now 1
            = ((inject_Z 1 - tokens (refill rl now)) / max_rate (refill rl now),
               set_tokens (refill rl now) (inject_Z 1 - inject_Z 1))%Q).
  { unfold acquire. destruct (Qlt_bool _ _) eqn:E; [reflexivity|].
    apply Qlt_bool_false in E. change (inject_Z 1) with 1%Q in E. lra. }
  rewrite Hfirst. cbn [fst snd]. split.
  - change (max_rate (refill rl now)) with (max_rate rl).
    change (inject_Z 1) with 1%Q. rewrite Hempty.
    unfold Qminus. rewrite Qplus_0_r. reflexivity.
  - unfold acquire.
    set (rl1 := set_tokens (refill rl now) (inject_Z 1 - inject_Z 1)%Q).
    assert (Hcredit : (1 <= (later - now) * max_rate rl)%Q).
    { assert (Hinv : (1 / max_rate rl * max_rate rl == 1)%Q).
      { field. lra. }
      assert ((1 / max_rate rl * max_rate rl <= (later - now) * max_rate rl)%Q).
      { apply Qmult_le_compat_r; lra. }
      lra. }
    assert (Hburst' : (1 <= inject_Z (burst_size rl))%Q).
    { change 1%Q with (inject_Z 1). rewrite <- Zle_Qle. exact Hburst. }
    assert (Hfull : (1 <= tokens (refill rl1 later))%Q).
    { simpl. apply py_min_glb; [exact Hburst'|].
      change (inject_Z 1) with 1%Q. lra. }
    destruct (Qlt_bool (tokens (refill rl1 later)) (inject_Z 1)) eqn:E;
      [|reflexivity].
    apply Qlt_bool_iff in E. change (inject_Z 1) with 1%Q in E. lra.
Qed.

Lemma sleep_is_credited_again_witness :
  let rl := run (init 2 (Some 1) 0) [(0%Q, 1)] in
  (fst (acquire rl 0 1) == 1 / max_rate rl)%Q /\
  fst (acquire (snd (acquire rl 0 1)) (1 # 2) 1) = 0%Q.
Proof.
  apply (sleep_is_credited_again (run (init 2 (Some 1) 0) [(0%Q, 1)]) 0 (1 # 2)).
  - repeat split; vm_compute; (reflexivity || discriminate).
  - simpl. lia.
  - vm_compute. discriminate.
  - vm_compute. reflexivity.
  - vm_compute. discriminate.
Defined.

(** *** The adaptive rates *)

Lemma py_max_lub a b c : (a <= c)%Q -> (b <= c)%Q -> (py_max a b <= c)%Q.
Proof. unfold py_max. destruct (Qlt_bool a b); auto. Qed.

Lemma py_max_ge_l a b : (a <= py_max a b)%Q.
Proof.
  unfold py_max. destruct (Qlt_bool a b) eqn:E; [|apply Qle_refl].
  apply Qlt_bool_iff in E. lra.
Qed.

(** One event keeps the rates in order, leaves the floor alone and never
    raises [self.max_rate]. *)
Lemma record_keeps_rates a e :
  rates_ok a ->
  rates_ok (record a e) /\
  min_rate (record a e) = min_rate a /\
  (max_rate (base (record a e)) <= max_rate (base a))%Q.
Proof.
  intros (Hmin & Hlo & Hhi).
  assert (Hsucc : (min_rate a <= py_min (max_rate (base a)) (current_rate a * (11 # 10))
                   <= max_rate (base a))%Q).
  { split; [apply py_min_glb; lra | apply py_min_le_l]. }
  assert (Hfail : (min_rate a <= py_max (min_rate a) (current_rate a * (1 # 2))
                   <= max_rate (base a))%Q).
  { split; [apply py_max_ge_l | apply py_max_lub; lra]. }
  unfold rates_ok.
  destruct e as [|is_rate_limit]; simpl.
  - unfold record_success. destruct (10 <=? _).
    + destruct (negb (Qeq_bool _ _)); simpl; repeat split; lra.
    + simpl. repeat split; lra.
  - unfold record_failure. destruct (is_rate_limit || _).
    + destruct (negb (Qeq_bool _ _)); simpl; repeat split; lra.
    + simpl. repeat split; lra.
Qed.

Lemma run_events_keeps_rates events : forall a,
  rates_ok a ->
  rates_ok (run_events a events) /\
  min_rate (run_events a events) = min_rate a /\
  (max_rate (base (run_events a events)) <= max_rate (base a))%Q.
Proof.
  induction events as [|e events IH]; intros a Hok.
  - repeat split; try apply Hok. apply Qle_refl.
  - destruct (record_keeps_rates a e Hok) as (Hok1 & Hmin1 & Hmax1).
    destruct (IH (record a e) Hok1) as (Hok2 & Hmin2 & Hmax2).
    unfold run_events in *. simpl. split; [exact Hok2|].
    split; [congruence | lra].
Qed.

(** X4.  Whatever successes and failures are reported, in any order, to an
    adaptive limiter built with [0 < min_rate <= initial_rate <= max_rate],
    both its current rate and the refill rate of its bucket stay between
    [min_rate] and [max_rate]. *)
Theorem adaptive_rates_stay_in_range (initial min_r max_r now : Q)
        (events : list Event) :
  (0 < min_r)%Q -> (min_r <= initial)%Q -> (initial <= max_r)%Q ->
  let a := run_events (adaptive_init initial min_r max_r now) events in
  (min_r <= current_rate a <= max_r)%Q /\
  (min_r <= max_rate (base a) <= max_r)%Q.
Proof.
  intros Hmin Hlo Hhi a.
  destruct (run_events_keeps_rates events (adaptive_init initial min_r max_r now))
    as ((_ & Hlo' & Hhi') & Hm & Hmax).
  { repeat split; simpl; assumption. }
  fold a in Hlo', Hhi', Hm, Hmax. simpl in Hm, Hmax. rewrite Hm in Hlo'.
  repeat split; lra.
Qed.

Lemma adaptive_rates_stay_in_range_witness :
  let a := run_events (adaptive_init 2 1 3 0)
             (replicate 10 Success ++ replicate 5 (Failure false)) in
  (1 <= current_rate a <= 3)%Q /\ (1 <= max_rate (base a) <= 3)%Q.
Proof.
  apply (adaptive_rates_stay_in_range 2 1 3 0).
  - reflexivity.
  - vm_compute. discriminate.
  - vm_compute. discriminate.
Defined.

(** X5.  Every adjustment stores the new rate in [self.max_rate], the
    attribute [record_success] reads as its ceiling: once the current rate
    equals that attribute, no sequence of successes and failures ever raises
    the rate above the value it has then. *)
Theorem adjusted_rate_never_rises (a : AdaptiveRateLimiter) (events : list Event) :
  rates_ok a ->
  (current_rate a == max_rate (base a))%Q ->
  (current_rate (run_events a events) <= current_rate a)%Q.
Proof.
  intros Hok Heq.
  destruct (run_events_keeps_rates events a Hok) as ((_ & _ & Hhi) & _ & Hmax).
  lra.
Qed.

Lemma adjusted_rate_never_rises_witness :
  let a := record_failure (adaptive_init 2 (1 # 2) 10 0) true in
  (current_rate (run_events a (replicate 40 Success)) <= current_rate a)%Q.
Proof.
  apply (adjusted_rate_never_rises
           (record_failure (adaptive_init 2 (1 # 2) 10 0) true)
           (replicate 40 Success)).
  - repeat split; vm_compute; (reflexivity || discriminate).
  - vm_compute. reflexivity.
Defined.

(** *** Failures in a row *)

Lemma run_events_snoc a events e :
  run_events a (events ++ [e]) = record (run_events a events) e.
Proof. unfold run_events. rewrite fold_left_app. reflexivity. Qed.

Lemma failures_S n a : failures (S n) a = record_failure (failures n a) false.
Proof.
  unfold failures. change (S n) with (1 + n)%nat.
  rewrite Nat.add_comm, replicate_add. apply run_events_snoc.
Qed.

Lemma pow2_pos (m : nat) : (0 < inject_Z (2 ^ Z.of_nat m))%Q.
Proof.
  change 0%Q with (inject_Z 0). rewrite <- Zlt_Qlt. apply Z.pow_pos_nonneg; lia.
Qed.

Lemma pow2_S (m : nat) :
  (inject_Z (2 ^ Z.of_nat (S m)) == 2 * inject_Z (2 ^ Z.of_nat m))%Q.
Proof.
  rewrite Nat2Z.inj_succ, Z.pow_succ_r by lia. rewrite inject_Z_mult. reflexivity.
Qed.


Lemma record_failure_below a :
  recent_failures a + 1 < 3 ->
  record_failure a false
  = {| base := base a; min_rate := min_rate a; current_rate := current_rate a;
       consecutive_successes := 0; recent_failures := recent_failures a + 1 |}.
Proof.
  intros H. unfold record_failure. cbn [orb].
  destruct (3 <=? recent_failures a + 1) eqn:E; [|reflexivity].
  apply Z.leb_le in E. lia.
Qed.

Lemma record_failure_halves a is_rate_limit :
  is_rate_limit = true \/ 3 <= recent_failures a + 1 ->
  recent_failures (record_failure a is_rate_limit) = recent_failures a + 1 /\
  min_rate (record_failure a is_rate_limit) = min_rate a /\
  (current_rate (record_failure a is_rate_limit)
   == py_max (min_rate a) (current_rate a * (1 # 2)))%Q.
Proof.
  intros H. unfold record_failure.
  replace (is_rate_limit || (3 <=? recent_failures a + 1)) with true.
  2:{ symmetry. apply orb_true_iff. destruct H as [H|H]; [left; exact H | right].
      apply Z.leb_le, H. }
  destruct (Qeq_bool _ _) eqn:E; simpl.
  - apply Qeq_bool_iff in E. repeat split. symmetry. exact E.
  - repeat split; reflexivity.
Qed.

Lemma py_max_compat a b b' : (b == b')%Q -> (py_max a b == py_max a b')%Q.
Proof.
  intros H. unfold py_max.
  destruct (Qlt_bool a b) eqn:E1; destruct (Qlt_bool a b') eqn:E2;
    repeat match goal with
    | H : Qlt_bool _ _ = true |- _ => apply Qlt_bool_iff in H
    | H : Qlt_bool _ _ = false |- _ => apply Qlt_bool_false in H
    end; lra.
Qed.

Lemma halve_max lo x c p :
  (0 < lo)%Q -> (0 < p)%Q ->
  (x == py_max lo (c / p))%Q ->
  (py_max lo (x * (1 # 2)) == py_max lo (c / (2 * p)))%Q.
Proof.
  intros Hlo Hp Hx.
  assert (Hhalf : (c / (2 * p) == c / p * (1 # 2))%Q) by (field; lra).
  revert Hx Hhalf. generalize (c / p)%Q (c / (2 * p))%Q. intros y z Hx Hz.
  unfold py_max in *.
  destruct (Qlt_bool lo y) eqn:E1; destruct (Qlt_bool lo (x * (1 # 2))) eqn:E2;
    destruct (Qlt_bool lo z) eqn:E3;
    repeat match goal with
    | H : Qlt_bool _ _ = true |- _ => apply Qlt_bool_iff in H
    | H : Qlt_bool _ _ = false |- _ => apply Qlt_bool_false in H
    end; lra.
Qed.

(** After two failures the count stands at the threshold; each further
    failure halves the rate, down to the floor. *)
Lemma failures_decay (m : nat) a :
  (0 < min_rate a)%Q -> (min_rate a <= current_rate a)%Q ->
  recent_failures a = 0 ->
  recent_failures (failures (m + 2) a) = Z.of_nat m + 2 /\
  min_rate (failures (m + 2) a) = min_rate a /\
  (current_rate (failures (m + 2) a)
   == py_max (min_rate a) (current_rate a / inject_Z (2 ^ Z.of_nat m)))%Q.
Proof.
  intros Hmin Hle Hrf.
  induction m as [|m (IHrf & IHmin & IHc)].
  - change (0 + 2)%nat with 2%nat. rewrite !failures_S.
    change (failures 0 a) with a.
    rewrite (record_failure_below a) by lia.
    rewrite record_failure_below by (simpl; lia). simpl.
    split; [lia|]. split; [reflexivity|].
    assert (H : (current_rate a / inject_Z (2 ^ Z.of_nat 0) == current_rate a)%Q)
      by (change (inject_Z (2 ^ Z.of_nat 0)) with 1%Q; field).
    unfold py_max. destruct (Qlt_bool _ _) eqn:E; [symmetry; exact H|].
    apply Qlt_bool_false in E. lra.
  - change (S m + 2)%nat with (S (m + 2)). rewrite failures_S.
    destruct (record_failure_halves (failures (m + 2) a) false) as (Hrf' & Hmin' & Hc').
    { right. lia. }
    split; [lia|]. split; [congruence|].
    rewrite Hc', IHmin.
    assert (Hp : (current_rate a / inject_Z (2 ^ Z.of_nat (S m))
                  == current_rate a / (2 * inject_Z (2 ^ Z.of_nat m)))%Q).
    { rewrite pow2_S. reflexivity. }
    etransitivity; [apply (halve_max _ _ (current_rate a) (inject_Z (2 ^ Z.of_nat m)));
                    [exact Hmin | apply pow2_pos | exact IHc]|].
    apply py_max_compat. symmetry. exact Hp.
Qed.

Lemma failures_below (n : nat) a :
  (n <= 2)%nat ->
  recent_failures a = 0 ->
  current_rate (failures n a) = current_rate a /\ base (failures n a) = base a.
Proof.
  intros Hn Hrf.
  destruct n as [|[|[|n]]]; [| | |lia]; rewrite ?failures_S;
    change (failures 0 a) with a.
  - split; reflexivity.
  - rewrite record_failure_below by lia. split; reflexivity.
  - rewrite (record_failure_below a) by lia.
    rewrite record_failure_below by (simpl; lia). split; reflexivity.
Qed.

(** X21.  Failures in a row, counted from a limiter with no recent failure:
    the first two leave the current rate and the refill rate of the bucket
    as they are; the third is the first to reduce the rate, and since a
    reduction does not reset the count, every failure from the third on
    halves the rate again, down to [min_rate]: after [n >= 2] failures the
    rate is [max(min_rate, rate / 2^(n-2))].  A failure flagged as a
    rate-limit error halves the rate at once. *)
Theorem failures_halve_the_rate (a : AdaptiveRateLimiter) (n : nat) :
  (0 < min_rate a)%Q ->
  (min_rate a <= current_rate a)%Q ->
  recent_failures a = 0 ->
  ((n <= 2)%nat ->
   current_rate (failures n a) = current_rate a /\
   max_rate (base (failures n a)) = max_rate (base a)) /\
  ((2 <= n)%nat ->
   (current_rate (failures n a)
    == py_max (min_rate a)
              (current_rate a / inject_Z (2 ^ Z.of_nat (n - 2))))%Q) /\
  (current_rate (record_failure a true)
   == py_max (min_rate a) (current_rate a * (1 # 2)))%Q.
Proof.
  intros Hmin Hle Hrf. split; [|split].
  - intros Hn. destruct (failures_below n a Hn Hrf) as [Hc Hb].
    rewrite Hc, Hb. split; reflexivity.
  - intros Hn. replace n with (n - 2 + 2)%nat at 1 by lia.
    apply (failures_decay (n - 2) a Hmin Hle Hrf).
  - apply (record_failure_halves a true). left. reflexivity.
Qed.

Lemma failures_halve_the_rate_witness :
  (current_rate (failures 5 (adaptive_init 2 (1 # 10) 10 0))
   == py_max (1 # 10) (2 / inject_Z (2 ^ Z.of_nat (5 - 2))))%Q.
Proof.
  destruct (failures_halve_the_rate (adaptive_init 2 (1 # 10) 10 0) 5)
    as (_ & Hdecay & _).
  - reflexivity.
  - vm_compute. discriminate.
  - reflexivity.
  - apply Hdecay. lia.
Defined.

End LimiterExtra.

(** ** The decorator: hits, expiry, faults *)

Module CacheExtra.

Import Cache.

Section Cached.

Context {Args Value World : Type}.
Variable hash_args : Args -> Z.
Variables (key_prefix func_name : string) (ttl_seconds : Z).
Variable func : Args -> World -> Outcome (option Value) * World.

Local Abbreviation key := (cache_key hash_args key_prefix func_name).
Local Abbreviation wrapper := (wrapper hash_args key_prefix func_name ttl_seconds func).
Local Abbreviation calls_any := (calls_any hash_args key_prefix func_name ttl_seconds func).
Local Abbreviation direct_calls := (direct_calls func).

Lemma wrapper_stores args now f (c : gmap string (@Entry Value)) w v w1 :
  func args w = (Returned (Some v), w1) ->
  lookup_result c (key args) now f = None ->
  set_raises f = false ->
  wrapper args now f (c, w)
  = (Returned (Some v), (cache_set ttl_seconds c (key args) (Some v) now, w1)).
Proof.
  intros Hf Hmiss Hset. unfold Cache.wrapper. rewrite Hmiss, Hf, Hset. reflexivity.
Qed.

(** X6.  Store and read back: after a call that missed, computed a value
    other than [None] and stored it, a call with the same arguments made
    before the entry expires, on a cache that answers, returns that value
    and leaves the cache and the world as they are: the function is not run. *)
Theorem hit_within_ttl args now now' f f' (c : gmap string (@Entry Value)) w v w1 :
  func args w = (Returned (Some v), w1) ->
  lookup_result c (key args) now f = None ->
  set_raises f = false ->
  get_raises f' = false ->
  now' < now + ttl_seconds ->
  let st1 := snd (wrapper args now f (c, w)) in
  wrapper args now' f' st1 = (Returned (Some v), st1).
Proof.
  intros Hf Hmiss Hset Hget Hnow st1. subst st1.
  rewrite (wrapper_stores args now f c w v w1 Hf Hmiss Hset). cbn [snd].
  unfold Cache.wrapper, lookup_result, cache_get, cache_set.
  rewrite Hget, lookup_insert_eq. cbn [expire_time stored].
  replace (now' <? now + ttl_seconds) with true by (symmetry; apply Z.ltb_lt; lia).
  reflexivity.
Qed.

(** X7.  Expiry: from the moment [ttl_seconds] have passed since the value
    was stored, a call with the same arguments runs the function again. *)
Theorem expired_entry_is_recomputed args now now' f f'
        (c : gmap string (@Entry Value)) w v w1 :
  func args w = (Returned (Some v), w1) ->
  lookup_result c (key args) now f = None ->
  set_raises f = false ->
  now + ttl_seconds <= now' ->
  let st1 := snd (wrapper args now f (c, w)) in
  fst (wrapper args now' f' st1) = fst (func args w1) /\
  snd (snd (wrapper args now' f' st1)) = snd (func args w1).
Proof.
  intros Hf Hmiss Hset Hnow st1. subst st1.
  rewrite (wrapper_stores args now f c w v w1 Hf Hmiss Hset). cbn [snd].
  assert (Hexp : lookup_result (cache_set ttl_seconds c (key args) (Some v) now)
                               (key args) now' f' = None).
  { unfold lookup_result, cache_get, cache_set.
    destruct (get_raises f'); [reflexivity|].
    rewrite lookup_insert_eq. cbn [expire_time stored].
    replace (now' <? now + ttl_seconds) with false by (symmetry; apply Z.ltb_ge; lia).
    reflexivity. }
  unfold Cache.wrapper. rewrite Hexp.
  destruct (func args w1) as [[r|] w2]; split; reflexivity.
Qed.

(** X8.  A cache that fails is no cache: when every [cache.get] and every
    [cache.set] raises, a sequence of calls through the wrapper gives the
    results and has the effects of the same calls made on the function
    itself, and the cache is left as it was. *)
Theorem failing_cache_is_transparent (l : list (Args * Z * Faults)) :
  forall (c : gmap string (@Entry Value)) w,
  Forall (fun call => get_raises (snd call) = true /\ set_raises (snd call) = true) l ->
  calls_any l (c, w) = (fst (direct_calls l w), (c, snd (direct_calls l w))).
Proof.
  induction l as [|[[args now] f] l IH]; intros c w Hall; [reflexivity|].
  apply Forall_cons in Hall as [[Hget Hset] Hall]. simpl in Hget, Hset.
  cbn [Cache.calls_any Cache.direct_calls].
  unfold Cache.wrapper, lookup_result. rewrite Hget, Hset.
  destruct (func args w) as [[r|] w1].
  - rewrite (IH c w1 Hall). destruct (direct_calls l w1) as [rs w2]. reflexivity.
  - rewrite (IH c w1 Hall). destruct (direct_calls l w1) as [rs w2]. reflexivity.
Qed.

Section Pure.

(** The wrapped function answers [f args] whatever the world is. *)
Variable f : Args -> option Value.
Hypothesis func_answers : forall args w, fst (func args w) = Returned (f args).
Hypothesis no_collision : forall a b, hash_args a = hash_args b -> a = b.

Lemma cache_key_inj a b : key a = key b -> a = b.
Proof.
  unfold cache_key. intros H.
  repeat apply (inj (String.app _)) in H.
  apply no_collision. apply (inj pretty). exact H.
Qed.

Lemma wrapper_coherent args now flt (c : gmap string (@Entry Value)) w :
  coherent hash_args key_prefix func_name f c ->
  fst (wrapper args now flt (c, w)) = Returned (f args) /\
  coherent hash_args key_prefix func_name f (fst (snd (wrapper args now flt (c, w)))).
Proof.
  intros Hc. unfold Cache.wrapper.
  destruct (lookup_result c (key args) now flt) as [v|] eqn:E.
  - split; [|exact Hc]. cbn [fst]. f_equal.
    unfold lookup_result, cache_get in E.
    destruct (get_raises flt); [discriminate|].
    destruct (c !! key args) as [e|] eqn:Ee; [|discriminate].
    destruct (now <? expire_time e); [|discriminate].
    rewrite <- E. apply (Hc args e Ee).
  - pose proof (func_answers args w) as Hf.
    destruct (func args w) as [[r|] w1]; simpl in Hf; [|discriminate].
    injection Hf as ->. split; [reflexivity|]. cbn [fst snd].
    destruct (set_raises flt); [exact Hc|].
    intros args' e. unfold cache_set.
    destruct (decide (key args = key args')) as [Heq|Hne].
    + rewrite Heq, lookup_insert_eq. intros [= <-]. simpl.
      f_equal. apply cache_key_inj, Heq.
    + rewrite lookup_insert_ne by exact Hne. apply Hc.
Qed.

(** X9.  Memoisation is transparent: for a function whose answer depends on
    its arguments only, and arguments whose hashes do not collide, every call
    of any sequence made through the wrapper on an initially empty cache
    returns what the function answers for its arguments, whatever the times
    of the calls and whenever the cache fails. *)
Theorem memoisation_is_transparent (l : list (Args * Z * Faults)) (w : World) :
  fst (calls_any l (∅, w)) = (fun call => Returned (f (fst (fst call)))) <$> l.
Proof.
  assert (H : forall (c : gmap string (@Entry Value)) w,
             coherent hash_args key_prefix func_name f c ->
             fst (calls_any l (c, w))
             = (fun call => Returned (f (fst (fst call)))) <$> l).
  { induction l as [|[[args now] flt] l IH]; intros c w' Hc; [reflexivity|].
    destruct (wrapper_coherent args now flt c w' Hc) as [Hr Hc1].
    cbn [Cache.calls_any].
    destruct (wrapper args now flt (c, w')) as [r [c1 w1]].
    simpl in Hr, Hc1. subst r.
    specialize (IH c1 w1 Hc1).
    destruct (calls_any l (c1, w1)) as [rs st2]. simpl in IH. subst rs.
    reflexivity. }
  apply H. intros args e He. rewrite lookup_empty in He. discriminate.
Qed.

End Pure.

End Cached.

Lemma hit_within_ttl_witness :
  let st1 := snd (wrapper (fun z => z) "p" "f" 60 counting_square 3 0
                          (mkFaults false false) (∅, 0%nat)) in
  wrapper (fun z => z) "p" "f" 60 counting_square 3 59 (mkFaults false true) st1
  = (Returned (Some 9), st1).
Proof.
  apply (hit_within_ttl (fun z => z) "p" "f" 60 counting_square 3 0 59
           (mkFaults false false) (mkFaults false true) ∅ 0%nat 9 1%nat).
  - reflexivity.
  - vm_compute. reflexivity.
  - reflexivity.
  - reflexivity.
  - lia.
Defined.

Lemma expired_entry_is_recomputed_witness :
  let st1 := snd (wrapper (fun z => z) "p" "f" 60 counting_square 3 0
                          (mkFaults false false) (∅, 0%nat)) in
  fst (wrapper (fun z => z) "p" "f" 60 counting_square 3 60 (mkFaults false false) st1)
  = fst (counting_square 3 1%nat) /\
  snd (snd (wrapper (fun z => z) "p" "f" 60 counting_square 3 60
                    (mkFaults false false) st1))
  = snd (counting_square 3 1%nat).
Proof.
  apply (expired_entry_is_recomputed (fun z => z) "p" "f" 60 counting_square 3 0 60
           (mkFaults false false) (mkFaults false false) ∅ 0%nat 9 1%nat).
  - reflexivity.
  - vm_compute. reflexivity.
  - reflexivity.
  - lia.
Defined.

Lemma failing_cache_is_transparent_witness :
  calls_any (fun z => z) "p" "f" 60 counting_square
            [(3, 0, mkFaults true true); (3, 1, mkFaults true true)] (∅, 0%nat)
  = (fst (direct_calls counting_square
            [(3, 0, mkFaults true true); (3, 1, mkFaults true true)] 0%nat),
     (∅, snd (direct_calls counting_square
                [(3, 0, mkFaults true true); (3, 1, mkFaults true true)] 0%nat))).
Proof.
  apply (failing_cache_is_transparent (fun z => z) "p" "f" 60 counting_square).
  repeat constructor.
Defined.

Lemma memoisation_is_transparent_witness :
  fst (calls_any (fun z => z) "p" "f" 60 counting_square
                 [(3, 0, mkFaults false false); (4, 1, mkFaults true false);
                  (3, 2, mkFaults false true); (3, 100, mkFaults false false)]
                 (∅, 0%nat))
  = [Returned (Some 9); Returned (Some 16); Returned (Some 9); Returned (Some 9)].
Proof.
  apply (memoisation_is_transparent (fun z => z) "p" "f" 60 counting_square
           (fun z => Some (z * z))).
  - intros args w. reflexivity.
  - intros a b H. exact H.
Defined.

End CacheExtra.

(** ** Headcounts: what later and foreign filings cannot do *)

Module CompaniesHouseExtra.

Import Text CompaniesHouse CompaniesHouseFacts.

Lemma first_seen_app P client filings more year :
  first_seen P client filings year <> "" ->
  first_seen P client (filings ++ more) year = first_seen P client filings year.
Proof.
  unfold first_seen. rewrite filter_app, omap_app.
  destruct (omap (filing_headcount P client)
                 (filter (fun f => filing_year f = Some year) filings)) as [|n l].
  - intros H. contradiction.
  - reflexivity.
Qed.

(** X10.  First seen wins: once the filings seen so far fill the slot of a
    tracked year, no filing that comes after them in the list changes it. *)
Theorem filled_slot_is_final P client filings more year v :
  year ∈ tracked_years ->
  extract_headcount_from_filings P filings (Some client) !! employees_key year
    = Some v ->
  v <> "" ->
  extract_headcount_from_filings P (filings ++ more) (Some client)
    !! employees_key year = Some v.
Proof.
  intros Hy Hv Hne.
  rewrite (extract_headcount_slot P client filings year Hy) in Hv.
  injection Hv as <-.
  rewrite (extract_headcount_slot P client (filings ++ more) year Hy).
  rewrite first_seen_app by exact Hne. reflexivity.
Qed.

Lemma filled_slot_is_final_witness :
  extract_headcount_from_filings
    {| extract_employees_from_ixbrl := fun _ => Returned None;
       extract_employees_from_pdf := fun _ => Returned (Some 42) |}
    (fragment_filings ++ fragment_filings) (Some fragment_client)
    !! employees_key "2023" = Some "42".
Proof.
  apply (filled_slot_is_final _ fragment_client fragment_filings fragment_filings).
  - unfold tracked_years. rewrite !elem_of_cons. auto.
  - vm_compute. reflexivity.
  - discriminate.
Defined.

Lemma first_seen_tracked_only P client filings year :
  first_seen P client (filter (fun f => is_Some (filing_year f)) filings) year
  = first_seen P client filings year.
Proof.
  unfold first_seen. rewrite list_filter_filter.
  rewrite (list_filter_iff _ (fun f => filing_year f = Some year)); [reflexivity|].
  intros f. split; [intros [H _]; exact H|].
  intros H. split; [exact H | rewrite H; eexists; reflexivity].
Qed.

(** X11.  Filings that carry no date, a date shorter than four characters or
    a year other than 2024, 2023 and 2022 have no effect at all: the
    dictionary returned is the one returned without them. *)
Theorem untracked_filings_are_ignored P client filings :
  extract_headcount_from_filings P
    (filter (fun f => is_Some (filing_year f)) filings) (Some client)
  = extract_headcount_from_filings P filings (Some client).
Proof.
  apply map_eq. intros k.
  destruct (decide (k ∈ dom empty_headcounts)) as [Hk|Hk].
  - assert (Hyear : exists year, year ∈ tracked_years /\ k = employees_key year).
    { unfold empty_headcounts in Hk. rewrite !dom_insert_L, dom_empty_L in Hk.
      rewrite !elem_of_union, !elem_of_singleton, elem_of_empty in Hk.
      unfold tracked_years.
      destruct Hk as [->|[->|[->|[]]]];
        [exists "2024" | exists "2023" | exists "2022"];
        (split; [rewrite !elem_of_cons; auto | reflexivity]). }
    destruct Hyear as (year & Hy & ->).
    rewrite !(extract_headcount_slot P client _ year Hy).
    rewrite first_seen_tracked_only. reflexivity.
  - transitivity (@None string); [|symmetry]; apply not_elem_of_dom;
      rewrite extract_headcount_dom; exact Hk.
Qed.

End CompaniesHouseExtra.

(** ** One record: what the result can and cannot hold *)

Module EnricherExtra.

Import Text CompaniesHouse Enricher EnricherFacts.

Lemma url_is_no_headcount : "company_url" ∉ dom empty_headcounts.
Proof.
  unfold empty_headcounts. rewrite !dom_insert_L, dom_empty_L.
  rewrite !elem_of_union, !elem_of_singleton, elem_of_empty.
  intros [H|[H|[H|[]]]]; discriminate.
Qed.

Lemma description_is_no_headcount : "description" ∉ dom empty_headcounts.
Proof.
  unfold empty_headcounts. rewrite !dom_insert_L, dom_empty_L.
  rewrite !elem_of_union, !elem_of_singleton, elem_of_empty.
  intros [H|[H|[H|[]]]]; discriminate.
Qed.

(** The website step fills the description only after it has stored a
    website that is not empty. *)
Lemma find_website_pairs S name r :
  r !! "company_url" = Some "" -> r !! "description" = Some "" ->
  snd (find_website S name r) !! "company_url" = Some "" ->
  snd (find_website S name r) !! "description" = Some "".
Proof.
  intros Hu Hd. unfold find_website, bind, await, assign.
  destruct (find_official_site S name) as [website|]; [|intros _; exact Hd].
  destruct (truthy_opt website) eqn:Et; [|intros _; exact Hd].
  destruct website as [w|]; [|discriminate]. simpl in Et.
  assert (Hw : w <> "").
  { intros ->. discriminate. }
  destruct (grab_description S _); simpl.
  - rewrite lookup_insert_ne by discriminate. rewrite lookup_insert_eq.
    intros [= Heq]. contradiction.
  - rewrite lookup_insert_eq. intros [= Heq]. contradiction.
Qed.

(** X12.  No description without a website: in every result of the
    enrichment of a record, whatever the collaborators answer and wherever
    they raise, an empty [company_url] comes with an empty [description]. *)
Theorem no_description_without_website S (company r : gmap string string) :
  _perform_enrichment S company = Returned r ->
  r !! "company_url" = Some "" ->
  r !! "description" = Some "".
Proof.
  unfold _perform_enrichment.
  destruct (company !! "CompanyNumber") as [number|]; [|discriminate].
  destruct (company !! "CompanyName") as [name|]; [|discriminate].
  intros [= <-]. rewrite try_block_unfold.
  pose proof (locate_frame S (fetch_profile S number) empty_result "company_url"
                ltac:(discriminate)) as Hu.
  pose proof (locate_frame S (fetch_profile S number) empty_result "description"
                ltac:(discriminate)) as Hd.
  destruct (locate S (fetch_profile S number) empty_result) as [[[]|] r1];
    cbn [snd] in *.
  - pose proof (find_website_pairs S name r1 Hu Hd) as Hpair.
    destruct (find_website S name r1) as [[[]|] r2]; cbn [snd] in *.
    + rewrite !count_employees_frame
        by (apply url_is_no_headcount || apply description_is_no_headcount).
      exact Hpair.
    + exact Hpair.
  - intros _. exact Hd.
Qed.

Lemma no_description_without_website_witness :
  <["manufacturing_location" := "1 Main St, London, EC1 1AA"]> empty_result
    !! "description" = Some "".
Proof.
  apply (no_description_without_website address_only acme).
  - vm_compute. reflexivity.
  - vm_compute. reflexivity.
Defined.

Lemma join_nonempty sep x rest : x <> "" -> join sep (x :: rest) <> "".
Proof.
  intros Hx. destruct x as [|c x]; [contradiction|].
  destruct rest; simpl; discriminate.
Qed.

(** X13.  The formatted address is empty exactly when none of the seven
    parts is present with a text that is not empty. *)
Theorem format_address_empty_iff (address_data : gmap string string) :
  _format_address address_data = "" <->
  Forall (fun k => address_data !! k = None \/ address_data !! k = Some "")
         address_keys.
Proof.
  unfold _format_address. fold address_keys.
  induction address_keys as [|k keys IH].
  - simpl. split; [constructor | reflexivity].
  - rewrite Forall_cons. cbn [omap list_omap].
    destruct (address_data !! k) as [s|] eqn:Ek.
    + destruct (truthy s) eqn:Es.
      * split.
        -- intros H. exfalso. revert H. apply join_nonempty.
           intros ->. discriminate.
        -- intros [[H|H] _]; [discriminate|]. injection H as ->. discriminate.
      * apply CompaniesHouseFacts.truthy_false in Es. subst s.
        rewrite IH. split; [intros H; split; [right; reflexivity | exact H]|].
        intros [_ H]. exact H.
    + rewrite IH. split; [intros H; split; [left; reflexivity | exact H]|].
      intros [_ H]. exact H.
Qed.

End EnricherExtra.

(** ** The batch: the real task, checkpoints read back, resuming a finished run *)

Module PipelineExtra.

Import Pipeline PipelineFacts.

Local Open Scope nat_scope.

(** X14.  The batch over the real per-record task: a run with a positive
    concurrency, a positive checkpoint interval and a supported output
    format completes, every row of the frame it returns has exactly the six
    enrichment fields, and a record that lacks one of the two required
    columns, whose task raises before its [try] block, gets the all-empty
    result. *)
Theorem enriched_rows_have_six_fields (sources : nat -> Enricher.Sources)
        (df : list (gmap string string)) (output_path : string)
        (concurrency checkpoint_every : Z) (fs : gmap string File) :
  (1 <= concurrency)%Z ->
  (1 <= checkpoint_every)%Z ->
  Text.endswith output_path ".csv" = true \/
  Text.endswith output_path ".parquet" = true ->
  exists final_df fs',
    enrich_dataframe (enrich_single_company sources) df output_path
                     concurrency checkpoint_every fs
      = (Completed final_df, fs') /\
    Forall (fun row => dom (snd row) = list_to_set Enricher.result_fields) final_df /\
    (forall i company, df !! i = Some company ->
       company !! "CompanyNumber" = None \/ company !! "CompanyName" = None ->
       final_df !! i = Some (company, Enricher.empty_result)).
Proof.
  intros Hc Hk Hpath. eexists _, _.
  split; [apply enrich_dataframe_completes; assumption|]. split.
  - apply Forall_lookup. intros i [company r] Hi.
    apply lookup_zip_Some in Hi as [Hrow Hres]. simpl in Hrow, Hres. simpl.
    unfold expected_results in Hres. rewrite list_lookup_imap, Hrow in Hres.
    injection Hres as <-. unfold enrich_single_company.
    destruct (Enricher._perform_enrichment (sources i) company) as [r|] eqn:E; simpl.
    + apply (EnricherFacts.perform_enrichment_fields _ _ _ E).
    + apply EnricherFacts.dom_empty_result.
  - intros i company Hi Hmissing. apply lookup_zip_Some. split; [exact Hi|].
    simpl. unfold expected_results. rewrite list_lookup_imap, Hi. simpl.
    f_equal. unfold enrich_single_company, Enricher._perform_enrichment.
    destruct Hmissing as [-> | Hname]; [reflexivity|].
    rewrite Hname. destruct (company !! "CompanyNumber"); reflexivity.
Qed.

Lemma enriched_rows_have_six_fields_witness :
  exists final_df fs',
    enrich_dataframe (enrich_single_company (fun _ => Enricher.search_fails))
                     [Enricher.acme; ∅] "out.parquet" 1 1 ∅
      = (Completed final_df, fs') /\
    Forall (fun row => dom (snd row) = list_to_set Enricher.result_fields) final_df /\
    final_df !! 1 = Some (∅, Enricher.empty_result).
Proof.
  destruct (enriched_rows_have_six_fields (fun _ => Enricher.search_fails)
              [Enricher.acme; ∅] "out.parquet" 1 1 ∅)
    as (final_df & fs' & Hrun & Hfields & Hmissing).
  - lia.
  - lia.
  - right. reflexivity.
  - exists final_df, fs'. split; [exact Hrun|]. split; [exact Hfields|].
    apply Hmissing; [reflexivity | left; reflexivity].
Defined.



(** X16.  Resuming a finished run: when the output already holds at least
    as many rows as the input, the command with the resume flag has nothing
    left to enrich; it returns an empty frame and leaves every file as it
    is. *)
Theorem resume_of_finished_run {Row}
        (task : nat -> Row -> Outcome (gmap string string))
        (df : list Row) (output : string) (concurrency checkpoint : Z)
        (fs : gmap string File) (rows : list (Row * gmap string string)) :
  (1 <= concurrency <= 50)%Z ->
  (10 <= checkpoint)%Z ->
  fs !! output = Some (mkFile Csv rows) ->
  length df <= length rows ->
  enrich task df output concurrency checkpoint true fs = (Completed [], fs).
Proof.
  intros Hc Hk Hfile Hlen. unfold enrich.
  replace ((concurrency <? 1) || (50 <? concurrency) || (checkpoint <? 10))%Z
    with false.
  2:{ symmetry. rewrite !orb_false_iff. repeat split; apply Z.ltb_ge; lia. }
  rewrite bool_decide_eq_true_2 by (rewrite Hfile; eexists; reflexivity).
  unfold read_csv. rewrite Hfile. cbn [andb file_format file_rows].
  rewrite drop_ge by exact Hlen.
  unfold enrich_dataframe, py_range.
  replace (concurrency <? 0)%Z with false by (symmetry; apply Z.ltb_ge; lia).
  replace (checkpoint =? 0)%Z with false by (symmetry; apply Z.eqb_neq; lia).
  replace (checkpoint <? 0)%Z with false by (symmetry; apply Z.ltb_ge; lia).
  cbn [length]. rewrite Nat.add_0_l, Nat.div_small by lia. reflexivity.
Qed.

Lemma resume_of_finished_run_witness :
  enrich numbered_task [7; 8] "out.csv" 5 10 true
         (<["out.csv" := mkFile Csv [(7, Enricher.empty_result); (8, Enricher.empty_result)]]> ∅)
  = (Completed [],
     <["out.csv" := mkFile Csv [(7, Enricher.empty_result); (8, Enricher.empty_result)]]> ∅).
Proof.
  apply (resume_of_finished_run numbered_task [7; 8] "out.csv" 5 10 _
           [(7, Enricher.empty_result); (8, Enricher.empty_result)]).
  - lia.
  - lia.
  - apply lookup_insert_eq.
  - simpl. lia.
Defined.

Lemma take_starts m n k :
  m <= n -> take m ((fun j => j * k) <$> seq 0 n) = (fun j => j * k) <$> seq 0 m.
Proof.
  intros H. rewrite <- fmap_take, take_seq. f_equal. f_equal. lia.
Qed.

(** X22.  Every checkpoint is a prefix of the final result: in a run with a
    positive concurrency, a positive checkpoint interval [k] and a supported
    output format, the output file after the [m]-th iteration of the loop,
    for every window [m] the frame has, holds exactly the first [m * k] rows
    of the frame the completed run returns, all of them when the frame is
    shorter; no other file is touched. *)
Theorem checkpoint_is_a_prefix {Row}
        (task : nat -> Row -> Outcome (gmap string string))
        (df : list Row) (output_path : string)
        (concurrency checkpoint_every : Z) (fs : gmap string File) (m : nat) :
  (1 <= concurrency)%Z ->
  (1 <= checkpoint_every)%Z ->
  Text.endswith output_path ".csv" = true \/
  Text.endswith output_path ".parquet" = true ->
  1 <= m ->
  (m - 1) * Z.to_nat checkpoint_every < length df ->
  exists final_df fs',
    enrich_dataframe task df output_path concurrency checkpoint_every fs
      = (Completed final_df, fs') /\
    output_rows (killed_after task m df output_path concurrency checkpoint_every fs)
                output_path
      = Some (take (m * Z.to_nat checkpoint_every) final_df) /\
    forall other, other <> output_path ->
      killed_after task m df output_path concurrency checkpoint_every fs !! other
      = fs !! other.
Proof.
  intros Hc Hk Hpath Hm Hwin.
  eexists _, _. split; [apply enrich_dataframe_completes; assumption|].
  set (k := Z.to_nat checkpoint_every) in *.
  assert (Hk' : 1 <= k) by (subst k; lia).
  destruct (ceil_windows (length df) k Hk') as (_ & Hcover & _).
  assert (Hle : m <= (length df + k - 1) / k) by (simpl in Hcover; nia).
  unfold killed_after, py_range.
  replace (concurrency <? 0)%Z with false by (symmetry; apply Z.ltb_ge; lia).
  replace (checkpoint_every =? 0)%Z with false by (symmetry; apply Z.eqb_neq; lia).
  replace (checkpoint_every <? 0)%Z with false by (symmetry; apply Z.ltb_ge; lia).
  fold k. rewrite (take_starts m _ k Hle).
  destruct (run_windows_spec task df output_path concurrency k Hc Hk' Hpath m 0 fs)
    as (fs1 & Hrun & _ & Hfs); [right; simpl; exact Hwin|].
  change (take (0 * k) (expected_results task df)) with (@nil (gmap string string)) in Hrun.
  rewrite Hrun. cbn [snd]. rewrite (Hfs Hm). simpl (0 + m). split.
  - unfold output_rows. rewrite lookup_insert_eq. cbn [fmap option_fmap option_map file_rows].
    f_equal. symmetry. apply zip_with_take.
  - intros other Hne. apply lookup_insert_ne. congruence.
Qed.

Lemma checkpoint_is_a_prefix_witness :
  exists final_df fs',
    enrich_dataframe numbered_task [7; 8; 9] "out.csv" 2 2 ∅
      = (Completed final_df, fs') /\
    output_rows (killed_after numbered_task 1 [7; 8; 9] "out.csv" 2 2 ∅) "out.csv"
      = Some (take (1 * Z.to_nat 2) final_df).
Proof.
  destruct (checkpoint_is_a_prefix numbered_task [7; 8; 9] "out.csv" 2 2 ∅ 1)
    as (final_df & fs' & Hrun & Hrows & _).
  - lia.
  - lia.
  - left. reflexivity.
  - lia.
  - simpl. lia.
  - exists final_df, fs'. split; [exact Hrun | exact Hrows].
Defined.

(** X23.  An output path that ends neither in [.csv] nor in [.parquet]: the
    run enriches the records of the first window, fails at its checkpoint
    and writes nothing; whatever the tasks returned is lost. *)
Theorem unsupported_output_aborts {Row}
        (task : nat -> Row -> Outcome (gmap string string))
        (df : list Row) (output_path : string)
        (concurrency checkpoint_every : Z) (fs : gmap string File) :
  (1 <= concurrency)%Z ->
  (1 <= checkpoint_every)%Z ->
  df <> [] ->
  Text.endswith output_path ".csv" = false ->
  Text.endswith output_path ".parquet" = false ->
  enrich_dataframe task df output_path concurrency checkpoint_every fs = (Aborted, fs).
Proof.
  intros Hc Hk Hne Hcsv Hpq.
  set (k := Z.to_nat checkpoint_every).
  assert (Hk' : 1 <= k) by (subst k; lia).
  assert (Hn : 0 < length df) by (destruct df; [contradiction | simpl; lia]).
  destruct (ceil_windows (length df) k Hk') as (_ & _ & Hsome).
  specialize (Hsome Hn).
  unfold enrich_dataframe, py_range.
  replace (concurrency <? 0)%Z with false by (symmetry; apply Z.ltb_ge; lia).
  replace (checkpoint_every =? 0)%Z with false by (symmetry; apply Z.eqb_neq; lia).
  replace (checkpoint_every <? 0)%Z with false by (symmetry; apply Z.ltb_ge; lia).
  fold k. destruct ((length df + k - 1) / k) as [|w]; [lia|].
  cbn [seq fmap list_fmap run_windows].
  rewrite Nat.mul_0_l, Nat.add_0_l, Nat.sub_0_r, drop_0.
  set (b := k `min` length df).
  assert (Hb : length (take b df) = b) by (rewrite length_take; subst b; lia).
  assert (Hb0 : b <> 0) by (subst b; lia).
  rewrite Hb.
  replace (concurrency =? 0)%Z with false by (symmetry; apply Z.eqb_neq; lia).
  cbn [andb app]. change (0 + b) with b.
  replace ((b <? length df) || (b =? length df)) with true.
  2:{ symmetry. apply orb_true_iff.
      destruct (Nat.le_gt_cases (length df) k).
      - right. apply Nat.eqb_eq. subst b. lia.
      - left. apply Nat.ltb_lt. subst b. lia. }
  unfold write_checkpoint, _merge_results.
  rewrite length_fmap, length_imap, Hb, length_take.
  replace (b `min` length df) with b by (subst b; lia).
  rewrite Nat.eqb_refl. unfold save_checkpoint. simpl (String.eqb _ _).
  cbn [andb]. rewrite Hcsv, Hpq. reflexivity.
Qed.

Lemma unsupported_output_aborts_witness :
  enrich_dataframe numbered_task [7; 8; 9] "out.xlsx" 2 2 ∅ = (Aborted, ∅).
Proof.
  apply (unsupported_output_aborts numbered_task [7; 8; 9] "out.xlsx" 2 2 ∅).
  - lia.
  - lia.
  - discriminate.
  - reflexivity.
  - reflexivity.
Defined.

End PipelineExtra.

(** ** [pipeline/batch.py] *)

Module BatchFacts.

Import Pipeline PipelineFacts Batch.

Local Open Scope nat_scope.

Lemma chunk_eq {A} (l : list A) k s :
  take ((s + k) `min` length l - s) (drop s l) = take k (drop s l).
Proof.
  destruct (Nat.le_gt_cases (s + k) (length l)) as [H|H].
  - replace ((s + k) `min` length l - s) with k by lia. reflexivity.
  - rewrite Nat.min_r by lia.
    rewrite !take_ge; [reflexivity | |]; rewrite length_drop; lia.
Qed.

Lemma chunks_concat {A} (l : list A) k m : forall a,
  mjoin ((fun j => take k (drop (j * k) l)) <$> seq a m)
  = take (m * k) (drop (a * k) l).
Proof.
  induction m as [|m IH]; intros a; [reflexivity|].
  cbn [seq fmap list_fmap mjoin list_join]. rewrite IH.
  replace (S a * k) with (a * k + k) by lia.
  rewrite <- drop_drop, take_take_drop.
  replace (S m * k) with (k + m * k) by lia. reflexivity.
Qed.

(** X17.  For a positive chunk size the chunks of [dataframe_chunker], put
    end to end, are the frame: no row is lost, repeated or moved; every chunk
    has at least one row and at most [chunk_size], and there are
    [ceil(len(df) / chunk_size)] of them. *)
Theorem chunks_cover_the_frame {Row} (df : list Row) (chunk_size : Z) :
  (1 <= chunk_size)%Z ->
  exists chunks,
    dataframe_chunker df chunk_size = Returned chunks /\
    mjoin chunks = df /\
    Forall (fun chunk => 1 <= length chunk <= Z.to_nat chunk_size) chunks /\
    length chunks = (length df + Z.to_nat chunk_size - 1) / Z.to_nat chunk_size.
Proof.
  intros Hk. set (k := Z.to_nat chunk_size).
  assert (Hk' : 1 <= k) by (subst k; lia).
  destruct (ceil_windows (length df) k Hk') as (Hstarts & Hcover & _).
  set (m := (length df + k - 1) / k) in *.
  exists ((fun j => take k (drop (j * k) df)) <$> seq 0 m).
  split; [|split; [|split]].
  - unfold dataframe_chunker, py_range.
    replace (chunk_size =? 0)%Z with false by (symmetry; apply Z.eqb_neq; lia).
    replace (chunk_size <? 0)%Z with false by (symmetry; apply Z.ltb_ge; lia).
    fold k m. f_equal. rewrite <- list_fmap_compose.
    apply list_fmap_ext. intros _ j _. simpl. apply chunk_eq.
  - rewrite chunks_concat. simpl. apply take_ge. simpl in Hcover. lia.
  - apply Forall_fmap, Forall_forall. intros j Hj. simpl.
    apply elem_of_seq in Hj. rewrite length_take, length_drop.
    destruct Hstarts as [Hm|Hm]; [lia|].
    assert (j * k <= (0 + m - 1) * k) by (apply Nat.mul_le_mono_r; lia). lia.
  - rewrite length_fmap, length_seq. reflexivity.
Qed.

Lemma chunks_cover_the_frame_witness :
  exists chunks,
    dataframe_chunker [1; 2; 3; 4; 5] 2 = Returned chunks /\
    mjoin chunks = [1; 2; 3; 4; 5] /\
    Forall (fun chunk => 1 <= length chunk <= Z.to_nat 2) chunks /\
    length chunks = (length [1; 2; 3; 4; 5] + Z.to_nat 2 - 1) / Z.to_nat 2.
Proof. apply (chunks_cover_the_frame [1; 2; 3; 4; 5] 2). lia. Defined.

Section Processor.

Context {T R : Type}.
Variable processor : nat -> T -> Outcome R.
Variable checkpoint_callback : option (list (Outcome R) -> Outcome unit).
Variables (items : list T) (k : nat) (max_concurrency checkpoint_every : Z).

Hypothesis k_pos : 1 <= k.
Hypothesis concurrency_pos : (1 <= max_concurrency)%Z.
Hypothesis callback_ok :
  forall callback, checkpoint_callback = Some callback ->
                   returns_always callback /\ checkpoint_every <> 0%Z.

Local Abbreviation all := (imap processor items).

Lemma batch_outcomes i b :
  imap (fun j item => processor (i + j) item) (take b (drop i items))
  = take b (drop i all).
Proof.
  apply list_eq. intros j.
  rewrite list_lookup_imap, !lookup_take.
  destruct (decide (j < b)); [|reflexivity].
  rewrite !lookup_drop, list_lookup_imap. reflexivity.
Qed.

Lemma process_batches_spec m : forall a handed,
  (m = 0 \/ (a + m - 1) * k < length items) ->
  Forall (is_checkpoint all checkpoint_every) handed ->
  exists handed',
    process_batches processor checkpoint_callback items k max_concurrency
                    checkpoint_every ((fun j => j * k) <$> seq a m)
                    (take (a * k) all) ((a * k) `min` length items) handed
    = (Completed (take ((a + m) * k) all), handed') /\
    Forall (is_checkpoint all checkpoint_every) handed' /\
    (checkpoint_callback = None -> handed' = handed).
Proof.
  induction m as [|m IH]; intros a handed Hm Hhanded.
  - exists handed. rewrite Nat.add_0_r. split; [reflexivity|].
    split; [exact Hhanded | reflexivity].
  - destruct Hm as [Hm|Hm]; [discriminate|].
    assert (Hi : a * k < length items) by nia.
    assert (Hnext : m = 0 \/ (S a + m - 1) * k < length items).
    { destruct m; [left; reflexivity | right].
      replace (S a + S m - 1) with (a + S (S m) - 1) by lia. exact Hm. }
    cbn [seq fmap list_fmap process_batches].
    set (i := a * k) in *.
    assert (Hb : length (take k (drop i items)) = k `min` (length items - i)).
    { rewrite length_take, length_drop. reflexivity. }
    replace (max_concurrency =? 0)%Z with false by (symmetry; apply Z.eqb_neq; lia).
    cbn [andb].
    rewrite batch_outcomes, take_take_drop, Hb.
    replace (i + k) with (S a * k) by (subst i; lia).
    replace (i `min` length items + k `min` (length items - i))
      with ((S a * k) `min` length items) by (subst i; lia).
    replace (a + S m) with (S a + m) by lia.
    destruct checkpoint_callback as [callback|] eqn:Ecb.
    + destruct (callback_ok callback eq_refl) as [Hret Hce].
      replace (checkpoint_every =? 0)%Z with false by (symmetry; apply Z.eqb_neq; lia).
      destruct (Z.of_nat ((S a * k) `min` length items) mod checkpoint_every =? 0)%Z
        eqn:Emod.
      * rewrite Hret.
        destruct (IH (S a) (handed ++ [take ((S a * k) `min` length items)
                                            (take (S a * k) all)]) Hnext)
          as (handed' & Hrun & Hall & _).
        { apply Forall_app. split; [exact Hhanded|]. constructor; [|constructor].
          apply Z.eqb_eq in Emod.
          assert (Hlen : length (take ((S a * k) `min` length items)
                                      (take (S a * k) all))
                         = (S a * k) `min` length items).
          { rewrite !length_take, length_imap. lia. }
          split; rewrite Hlen; [|exact Emod].
          rewrite take_take. f_equal. lia. }
        exists handed'. split; [exact Hrun|]. split; [exact Hall | discriminate].
      * destruct (IH (S a) handed Hnext Hhanded) as (handed' & Hrun & Hall & _).
        exists handed'. split; [exact Hrun|]. split; [exact Hall | discriminate].
    + destruct (IH (S a) handed Hnext Hhanded) as (handed' & Hrun & Hall & Hnone).
      exists handed'. split; [exact Hrun|]. split; [exact Hall | exact Hnone].
Qed.

End Processor.

(** X18.  [process_items] with a positive batch size, a positive
    concurrency and a callback that returns: the list returned holds, in the
    order of the items, what the processor yields for each of them, a result
    or the exception it raised; whatever the callback is handed is a prefix
    of that list whose length is a multiple of [checkpoint_every]; and
    without a callback nothing is handed over. *)
Theorem batches_keep_order {T R} (processor : nat -> T -> Outcome R)
        (checkpoint_callback : option (list (Outcome R) -> Outcome unit))
        (batch_size max_concurrency : Z) (items : list T) (checkpoint_every : Z) :
  (1 <= batch_size)%Z ->
  (1 <= max_concurrency)%Z ->
  (forall callback, checkpoint_callback = Some callback ->
                    returns_always callback /\ checkpoint_every <> 0%Z) ->
  exists handed,
    process_items processor checkpoint_callback batch_size max_concurrency
                  items checkpoint_every
    = (Completed (imap processor items), handed) /\
    Forall (is_checkpoint (imap processor items) checkpoint_every) handed /\
    (checkpoint_callback = None -> handed = []).
Proof.
  intros Hk Hc Hcb. set (k := Z.to_nat batch_size).
  assert (Hk' : 1 <= k) by (subst k; lia).
  destruct (ceil_windows (length items) k Hk') as (Hstarts & Hcover & _).
  destruct (process_batches_spec processor checkpoint_callback items k
              max_concurrency checkpoint_every Hk' Hc Hcb
              ((length items + k - 1) / k) 0 [] Hstarts ltac:(constructor))
    as (handed & Hrun & Hall & Hnone).
  exists handed. split; [|split; [exact Hall | exact Hnone]].
  unfold process_items, py_range.
  replace (max_concurrency <? 0)%Z with false by (symmetry; apply Z.ltb_ge; lia).
  replace (batch_size =? 0)%Z with false by (symmetry; apply Z.eqb_neq; lia).
  replace (batch_size <? 0)%Z with false by (symmetry; apply Z.ltb_ge; lia).
  fold k.
  change (take (0 * k) (imap processor items)) with (@nil (Outcome R)) in Hrun.
  change ((0 * k) `min` length items) with 0 in Hrun.
  rewrite Hrun. do 2 f_equal.
  apply take_ge. rewrite length_imap. exact Hcover.
Qed.

Lemma batches_keep_order_witness :
  exists handed,
    process_items (fun i (x : nat) => if Nat.even x then Returned (i + x) else Raised)
                  (Some (fun _ => Returned tt)) 2 1 [10; 11; 12; 13; 14] 4
    = (Completed [Returned 10; Raised; Returned 14; Raised; Returned 18], handed) /\
    Forall (is_checkpoint [Returned 10; Raised; Returned 14; Raised; Returned 18] 4)
           handed /\
    (Some (fun _ : list (Outcome nat) => Returned tt) = None -> handed = []).
Proof.
  apply (batches_keep_order
           (fun i (x : nat) => if Nat.even x then Returned (i + x) else Raised)
           (Some (fun _ => Returned tt)) 2 1 [10; 11; 12; 13; 14] 4).
  - lia.
  - lia.
  - intros callback [= <-]. split; [intros results; reflexivity | discriminate].
Defined.

(** *** The progress tracker *)

Lemma updates_cons t success rest :
  updates t (success :: rest)
  = (fst (update t success) :: fst (updates (snd (update t success)) rest),
     snd (updates (snd (update t success)) rest)).
Proof.
  simpl. destruct (update t success) as [o t1]. simpl.
  destruct (updates t1 rest) as [os t2]. reflexivity.
Qed.

Lemma update_counters t success :
  processed (snd (update t success)) = (processed t + 1)%Z /\
  successful (snd (update t success))
    = (successful t + (if success then 1 else 0))%Z /\
  failed (snd (update t success)) = (failed t + (if success then 0 else 1))%Z /\
  total_items (snd (update t success)) = total_items t /\
  report_every (snd (update t success)) = report_every t.
Proof.
  unfold update. destruct (report_every t =? 0)%Z.
  - destruct success; simpl; repeat split; lia.
  - destruct (_ mod _ =? 0)%Z; [destruct (total_items t =? 0)%Z|];
      destruct success; simpl; repeat split; lia.
Qed.

Lemma successes_in_cons b l :
  successes_in (b :: l) = ((if b then 1 else 0) + successes_in l)%Z.
Proof.
  unfold successes_in. rewrite filter_cons.
  destruct b; destruct (decide _) as [E|E]; try discriminate;
    try (exfalso; apply E; reflexivity); simpl length; lia.
Qed.

Lemma failures_in_cons b l :
  failures_in (b :: l) = ((if b then 0 else 1) + failures_in l)%Z.
Proof.
  unfold failures_in. rewrite filter_cons.
  destruct b; destruct (decide _) as [E|E]; try discriminate;
    try (exfalso; apply E; reflexivity); simpl length; lia.
Qed.

Lemma updates_counters l : forall t,
  processed (snd (updates t l)) = (processed t + Z.of_nat (length l))%Z /\
  successful (snd (updates t l)) = (successful t + successes_in l)%Z /\
  failed (snd (updates t l)) = (failed t + failures_in l)%Z.
Proof.
  induction l as [|b l IH]; intros t.
  - unfold successes_in, failures_in. simpl. repeat split; lia.
  - rewrite updates_cons. cbn [snd].
    destruct (IH (snd (update t b))) as (Hp & Hs & Hf).
    destruct (update_counters t b) as (Hp1 & Hs1 & Hf1 & _).
    rewrite Hp, Hs, Hf, Hp1, Hs1, Hf1, successes_in_cons, failures_in_cons.
    cbn [length]. repeat split; lia.
Qed.

Lemma div_step p r :
  (0 <= p)%Z -> (0 < r)%Z ->
  ((p + 1) / r = p / r + (if (p + 1) mod r =? 0 then 1 else 0))%Z.
Proof.
  intros Hp Hr.
  pose proof (Z.div_mod p r ltac:(lia)) as Hd.
  pose proof (Z.mod_pos_bound p r Hr) as Hb.
  destruct (Z.eq_dec (p mod r + 1)%Z r) as [E|E].
  - assert (Hq : (p + 1 = (p / r + 1) * r)%Z) by nia.
    rewrite Hq, Z.mod_mul, Z.div_mul by lia. reflexivity.
  - assert (Hm : ((p + 1) mod r = p mod r + 1)%Z).
    { symmetry. apply (Z.mod_unique_pos _ _ (p / r)%Z); nia. }
    assert (Hq : ((p + 1) / r = p / r)%Z).
    { symmetry. apply (Z.div_unique_pos _ _ _ (p mod r + 1)%Z); nia. }
    rewrite Hm, Hq.
    replace (p mod r + 1 =? 0)%Z with false by (symmetry; apply Z.eqb_neq; lia).
    lia.
Qed.

Lemma updates_report l : forall t,
  (0 < report_every t)%Z -> total_items t <> 0%Z -> (0 <= processed t)%Z ->
  Z.of_nat (reports t) = (processed t / report_every t)%Z ->
  Forall (fun o => o = Returned tt) (fst (updates t l)) /\
  Z.of_nat (reports (snd (updates t l)))
  = (processed (snd (updates t l)) / report_every t)%Z.
Proof.
  induction l as [|b l IH]; intros t Hr Ht Hp Hrep.
  - simpl. split; [constructor | exact Hrep].
  - rewrite updates_cons. cbn [fst snd].
    destruct (update_counters t b) as (Hp1 & _ & _ & Ht1 & Hr1).
    assert (Hstep : fst (update t b) = Returned tt /\
              Z.of_nat (reports (snd (update t b)))
              = (processed (snd (update t b)) / report_every t)%Z).
    { rewrite Hp1, (div_step (processed t) (report_every t) Hp Hr).
      unfold update.
      replace (report_every t =? 0)%Z with false by (symmetry; apply Z.eqb_neq; lia).
      cbn [processed].
      destruct ((processed t + 1) mod report_every t =? 0)%Z.
      - replace (total_items t =? 0)%Z with false by (symmetry; apply Z.eqb_neq; lia).
        cbn [fst snd reports]. split; [reflexivity | lia].
      - cbn [fst snd reports]. split; [reflexivity | lia]. }
    destruct Hstep as [Ho Hrep1].
    destruct (IH (snd (update t b))) as [Hos Hrep2].
    + rewrite Hr1. exact Hr.
    + rewrite Ht1. exact Ht.
    + rewrite Hp1. lia.
    + rewrite Hr1. exact Hrep1.
    + rewrite Hr1 in Hrep2. split; [constructor; assumption | exact Hrep2].
Qed.

(** X19.  The counters of a fresh tracker after any sequence of updates:
    [processed] is the number of updates, [successful] and [failed] are the
    numbers of those with [success] true and false, so [processed =
    successful + failed] at all times; and with a positive [report_every]
    and a non-zero total no update raises and a progress line has been
    logged once every [report_every] updates. *)
Theorem tracker_counts (total report : Z) (l : list bool) :
  let t := snd (updates (tracker total report) l) in
  processed t = Z.of_nat (length l) /\
  successful t = successes_in l /\
  failed t = failures_in l /\
  processed t = (successful t + failed t)%Z /\
  ((0 < report)%Z -> total <> 0%Z ->
   Forall (fun o => o = Returned tt) (fst (updates (tracker total report) l)) /\
   Z.of_nat (reports t) = (Z.of_nat (length l) / report)%Z).
Proof.
  intros t. subst t.
  destruct (updates_counters l (tracker total report)) as (Hp & Hs & Hf).
  simpl in Hp, Hs, Hf.
  assert (Hsum : (Z.of_nat (length l) = successes_in l + failures_in l)%Z).
  { clear. induction l as [|b l IH].
    - reflexivity.
    - rewrite successes_in_cons, failures_in_cons. cbn [length].
      destruct b; lia. }
  split; [exact Hp|]. split; [exact Hs|]. split; [exact Hf|].
  split; [rewrite Hp, Hs, Hf; exact Hsum|].
  intros Hr Ht.
  destruct (updates_report l (tracker total report)) as [Hos Hrep].
  - exact Hr.
  - exact Ht.
  - simpl. lia.
  - simpl. rewrite Z.div_0_l by lia. reflexivity.
  - split; [exact Hos|]. simpl in Hrep. rewrite Hrep, Hp. reflexivity.
Qed.

Lemma tracker_counts_witness :
  let t := snd (updates (tracker 10 2) [true; false; true; true; false]) in
  processed t = (successful t + failed t)%Z /\ Z.of_nat (reports t) = 2%Z.
Proof.
  destruct (tracker_counts 10 2 [true; false; true; true; false])
    as (_ & _ & _ & Hsum & Hreports).
  split; [exact Hsum|].
  destruct Hreports as [_ Hrep]; [lia | discriminate | exact Hrep].
Defined.

End BatchFacts.

(** ** The choice among the search results *)

Module WebSearchFacts.

Import Text WebSearch.

Section Search.

Variable is_valid_business_domain : string -> string -> bool.

Local Abbreviation first_site := (first_site is_valid_business_domain).
Local Abbreviation acceptable := (acceptable is_valid_business_domain).

Lemma first_site_is_head name results :
  first_site name results
  = head (filter (fun url => acceptable name url = true) (href <$> results)).
Proof.
  induction results as [|result results IH]; [reflexivity|].
  cbn [WebSearch.first_site fmap list_fmap]. rewrite filter_cons.
  fold (href result).
  destruct (decide (acceptable name (href result) = true)) as [Ha|Ha];
    unfold WebSearch.acceptable in Ha;
    destruct (truthy (href result)) eqn:Ht;
    destruct (skipped (href result)) eqn:Hs;
    destruct (is_valid_business_domain (href result) name) eqn:Hv;
    cbn [negb andb] in Ha |- *;
    try discriminate; try (exfalso; apply Ha; reflexivity);
    first [reflexivity | exact IH].
Qed.

Lemma not_skipped url :
  skipped url = false ->
  Forall (fun skip => contains skip (lower url) = false) skipped_sites.
Proof.
  unfold skipped. induction skipped_sites as [|skip sites IH]; [constructor|].
  cbn [existsb]. intros H. apply orb_false_iff in H as [H1 H2].
  constructor; [exact H1 | apply IH, H2].
Qed.


End Search.


End WebSearchFacts.

(** ** The progress of the windows *)

Module SemaphoreExtra.

Import Semaphore SemaphoreFacts.

Local Open Scope nat_scope.

Lemma work_insert (w : list Phase) : forall i p q,
  w !! i = Some p ->
  sum_list_with work (<[i := q]> w) + work p = sum_list_with work w + work q.
Proof.
  induction w as [|x w IH]; intros i p q Hi; [discriminate|].
  destruct i as [|i]; simpl in Hi.
  - injection Hi as ->. simpl. unfold id. lia.
  - simpl. specialize (IH i p q Hi). unfold id. lia.
Qed.

Lemma work_all_ended (w : list Phase) :
  Forall (fun p => p = Ended) w -> sum_list_with work w = 0.
Proof.
  induction 1 as [|p w Hp _ IH]; [reflexivity|]. simpl. rewrite IH, Hp. reflexivity.
Qed.

Lemma work_all_waiting n : sum_list_with work (replicate n Waiting) = 2 * n.
Proof. induction n as [|n IH]; [reflexivity|]. simpl. rewrite IH. lia. Qed.

Lemma step_remaining s s' : step s s' -> S (remaining s') = remaining s.
Proof.
  intros H. destruct H as [v w l i Hi | v w l i Hi | v w n l Hw];
    unfold remaining; simpl.
  - pose proof (work_insert w i Waiting Enriching Hi) as H. simpl in H. lia.
  - pose proof (work_insert w i Enriching Ended Hi) as H. simpl in H. lia.
  - rewrite work_all_waiting, (work_all_ended w Hw). lia.
Qed.

Lemma nsteps_remaining n s s' :
  nsteps step n s s' -> n + remaining s' = remaining s.
Proof.
  induction 1 as [|n x y z Hstep _ IH]; [reflexivity|].
  apply step_remaining in Hstep. lia.
Qed.

Lemma reachable_balance c ws s :
  rtc step (start c ws) s -> value s + enriching s = c.
Proof.
  revert s. apply (rtc_ind_r (fun s => value s + enriching s = c)).
  - unfold start, enriching. simpl. lia.
  - intros y z _ Hstep IH. rewrite (step_balance _ _ Hstep). exact IH.
Qed.


Lemma window_cases (w : list Phase) :
  (exists i, w !! i = Some Enriching) \/
  (length (filter (fun p => p = Enriching) w) = 0 /\
   ((exists i, w !! i = Some Waiting) \/ Forall (fun p => p = Ended) w)).
Proof.
  induction w as [|p w IH].
  - right. split; [reflexivity|]. right. constructor.
  - destruct p.
    + destruct IH as [[i Hi]|[H0 Hrest]].
      * left. exists (S i). exact Hi.
      * right. rewrite count_cons. split; [simpl; exact H0|].
        left. exists 0. reflexivity.
    + left. exists 0. reflexivity.
    + destruct IH as [[i Hi]|[H0 [[i Hi]|Hall]]].
      * left. exists (S i). exact Hi.
      * right. rewrite count_cons. split; [simpl; exact H0|].
        left. exists (S i). exact Hi.
      * right. rewrite count_cons. split; [simpl; exact H0|].
        right. constructor; [reflexivity | exact Hall].
Qed.

(** X24.  The semaphore never stops a run that has a slot: with a
    concurrency of at least one, in every state a run reaches, whatever the
    order in which the event loop resumes the tasks, either the run is over
    (every task has ended and no window is left) or some step can be taken;
    and every step uses up one of the steps that remain, two for each task
    and one for each window, so a run is over after exactly that many
    steps. *)
Theorem every_schedule_completes (concurrency : nat) (windows : list nat) (n : nat) (s : State) :
  1 <= concurrency ->
  nsteps step n (start concurrency windows) s ->
  n + remaining s = remaining (start concurrency windows) /\
  (finished s \/ exists s', step s s') /\
  (finished s <-> remaining s = 0).
Proof.
  intros Hc Hn.
  split; [apply nsteps_remaining, Hn|].
  assert (Hbal := reachable_balance _ _ _ (rtc_nsteps_2 _ _ _ Hn)).
  destruct s as [v w l]. unfold enriching in Hbal. simpl in Hbal.
  split.
  - destruct (window_cases w) as [[i Hi]|[H0 [[i Hi]|Hall]]].
    + right. eexists. apply (step_release v w l i Hi).
    + right. destruct v as [|v]; [lia|].
      eexists. apply (step_acquire v w l i Hi).
    + destruct l as [|m l].
      * left. split; [exact Hall | reflexivity].
      * right. eexists. apply (step_next_window v w m l Hall).
  - unfold finished, remaining. simpl. split.
    + intros [Hall ->]. rewrite (work_all_ended w Hall). reflexivity.
    + intros H0.
      assert (Hw : sum_list_with work w = 0) by lia.
      assert (Hl : l = []) by (destruct l; [reflexivity | simpl in H0; lia]).
      split; [|exact Hl]. clear -Hw.
      induction w as [|p w IH]; [constructor|].
      simpl in Hw. destruct p; simpl in Hw; try lia.
      constructor; [reflexivity | apply IH; lia].
Qed.


Lemma waiting_window_stuck (n : nat) (l : list nat) (s' : State) :
  0 < n -> ~ step (mkState 0 (replicate n Waiting) l) s'.
Proof.
  intros Hn Hstep. inversion Hstep as [| v w l' i Hi | v w n' l' Hw]; subst.
  - apply lookup_replicate in Hi as [Hi _]. discriminate.
  - destruct n; [lia|]. inversion Hw; discriminate.
Qed.

(** X25.  A semaphore without slots: with a concurrency of zero and a first
    window that is not empty, the only step of the run is the launch of
    that window; no record is ever enriched, the run is never over, and
    after the launch no step is left. *)
Theorem no_slot_no_progress (n : nat) (l : list nat) (s : State) :
  0 < n ->
  rtc step (start 0 (n :: l)) s ->
  (s = start 0 (n :: l) \/ s = mkState 0 (replicate n Waiting) l) /\
  enriching s = 0 /\
  ~ finished s /\
  forall s', ~ step (mkState 0 (replicate n Waiting) l) s'.
Proof.
  intros Hn Hreach.
  assert (Hs : s = start 0 (n :: l) \/ s = mkState 0 (replicate n Waiting) l).
  { revert s Hreach.
    apply (rtc_ind_r (fun s => s = start 0 (n :: l)
                               \/ s = mkState 0 (replicate n Waiting) l)).
    - left. reflexivity.
    - intros y z _ Hstep [-> | ->].
      + right. unfold start in Hstep.
        inversion Hstep as [| v w l' i Hi | v w n' l' Hw]; subst;
          [discriminate | reflexivity].
      + exfalso. exact (waiting_window_stuck n l z Hn Hstep). }
  split; [exact Hs|]. split; [|split].
  - destruct Hs as [-> | ->]; unfold enriching; simpl; [reflexivity|].
    apply count_all_waiting.
  - intros [Hall Hl]. destruct Hs as [-> | ->]; simpl in Hall, Hl; [discriminate|].
    destruct n; [lia|]. inversion Hall; discriminate.
  - intros s'. apply waiting_window_stuck, Hn.
Qed.

Lemma every_schedule_completes_witness :
  let s := mkState 0 [Enriching] [] in
  2 + remaining s = remaining (start 1 [1]) /\
  (finished s \/ exists s', step s s') /\
  (finished s <-> remaining s = 0).
Proof.
  apply (every_schedule_completes 1 [1] 2).
  - lia.
  - eapply nsteps_l; [apply step_next_window; constructor|].
    eapply nsteps_l; [apply (step_acquire 0 _ _ 0); reflexivity|].
    apply nsteps_O.
Defined.

Lemma no_slot_no_progress_witness :
  let s := mkState 0 [Waiting; Waiting] [3] in
  (s = start 0 [2; 3] \/ s = mkState 0 (replicate 2 Waiting) [3]) /\
  enriching s = 0 /\
  ~ finished s /\
  forall s', ~ step (mkState 0 (replicate 2 Waiting) [3]) s'.
Proof.
  apply (no_slot_no_progress 2 [3]).
  - lia.
  - eapply rtc_l; [apply step_next_window; constructor|]. apply rtc_refl.
Defined.

End SemaphoreExtra.
